(** * Trajectory readers of fmm (src/io/trajectory_reader.cpp)

    A shallow embedding of the delimited-text trajectory readers:
    the batch operations of [ITrajectoryReader], the whole-row reader
    [CSVTrajectoryReader] and the point-stream assembler
    [CSVTemporalPointReader], over a small model of the C++ input
    streams they read from.

    [CSVTemporalTrajectoryReader], the whole-row reader with a list of
    timestamps per row, is modelled too.  Not modelled:
    [GDALTrajectoryReader], which is calls into GDAL.

    The C++ [int]s of the readers are column indices, token counters and
    trajectory identifiers.  Indices and counters never exceed the number
    of tokens of one line and are plain [Z] here; identifiers come out of
    [std::stoi], whose range check is written out in [stoi]. *)

From Stdlib Require Import String Ascii List ZArith Lia Bool Arith.
Import ListNotations.
Local Open Scope string_scope.
Local Open Scope Z_scope.
Local Open Scope list_scope.

(** ** Exceptions

    The readers never catch anything: an exception thrown by [std::stoi],
    [std::stof] or [boost::geometry::read_wkt] leaves the member function
    and reaches the caller.  A call therefore returns a [result] together
    with the reader as the call left it. *)

Inductive exn : Type :=
| invalid_argument
| out_of_range
| read_wkt_exception.

Inductive result (A : Type) : Type :=
| Ok (a : A)
| Throw (e : exn).

Arguments Ok {A} a.
Arguments Throw {A} e.

Definition is_ok {A : Type} (r : result A) : bool :=
  match r with Ok _ => true | Throw _ => false end.

(** ** Input streams

    [std::ifstream] and [std::stringstream] as far as the readers use
    them: the text behind the stream, the part of it not yet extracted,
    and the two state flags the operations set. *)

Module ios.

Record istream : Type := mk {
  content : string;
  unread : string;
  is_open : bool;
  eofbit : bool;
  failbit : bool
}.

(** [std::ifstream ifs(filename)] on a file holding [s], and
    [std::stringstream ss(s)]. *)
Definition open (s : string) : istream := mk s s true false false.

Definition good (s : istream) : bool := negb (eofbit s) && negb (failbit s).

(** [!fail()], what [while (std::getline(...))] tests. *)
Definition succeeded (s : istream) : bool := negb (failbit s).

(** The characters before the first [d], and what follows that [d]
    ([None] when the text ends first). *)
Fixpoint extract (d : ascii) (s : string) : string * option string :=
  match s with
  | EmptyString => (EmptyString, None)
  | String c s' =>
      if Ascii.eqb c d then (EmptyString, Some s')
      else let (t, r) := extract d s' in (String c t, r)
  end.

(** [std::getline(is, str, d)]: on a stream that is not good the sentry
    fails, [failbit] is set and [str] is left as it was.  Otherwise
    characters are extracted up to and including the first [d], which is
    dropped; reaching the end sets [eofbit], and extracting nothing at all
    sets [failbit]. *)
Definition getline (s : istream) (str : string) (d : ascii) : string * istream :=
  if good s then
    match extract d (unread s) with
    | (t, Some r) => (t, mk (content s) r (is_open s) false false)
    | (t, None) =>
        (t, mk (content s) EmptyString (is_open s) true
              (match t with EmptyString => true | _ => false end))
    end
  else (str, mk (content s) (unread s) (is_open s) (eofbit s) true).

(** [is.peek()]: [None] stands for [EOF]. *)
Definition peek (s : istream) : option ascii * istream :=
  if good s then
    match unread s with
    | EmptyString => (None, mk (content s) EmptyString (is_open s) true (failbit s))
    | String c _ => (Some c, s)
    end
  else (None, mk (content s) (unread s) (is_open s) (eofbit s) true).

(** [is.clear()]. *)
Definition clear (s : istream) : istream :=
  mk (content s) (unread s) (is_open s) false false.

(** [is.seekg(0, std::ios::beg)]: clears [eofbit]; repositions unless the
    stream has failed. *)
Definition seekg_beg (s : istream) : istream :=
  if failbit s then mk (content s) (unread s) (is_open s) false true
  else if is_open s then mk (content s) (content s) true false false
  else mk (content s) (unread s) false false true.

(** [ifs.close()]: closing a file that is not open sets [failbit]. *)
Definition close (s : istream) : istream :=
  if is_open s then mk EmptyString EmptyString false (eofbit s) (failbit s)
  else mk (content s) (unread s) false (eofbit s) true.

End ios.

Definition LF : ascii := ascii_of_nat 10.

(** ** The record tokenizer

    Every reader splits a line with the same loop,
    [while (std::getline(ss, intermediate, delim)) { ...; ++index; }]
    over a [std::stringstream ss(line)].  [getline_loop] runs that loop and
    collects the successive values of [intermediate]; the stream is local to
    the call, so the loop body sees exactly these values, in order, with
    [index] counting from 0. *)

Fixpoint getline_loop (fuel : nat) (ss : ios.istream) (intermediate : string)
    (d : ascii) : option (list string) :=
  let (tok, ss') := ios.getline ss intermediate d in
  if ios.succeeded ss' then
    match fuel with
    | O => None
    | S fuel' =>
        match getline_loop fuel' ss' tok d with
        | Some toks => Some (tok :: toks)
        | None => None
        end
    end
  else Some [].

Definition tokenize (line : string) (d : ascii) : list string :=
  match getline_loop (String.length line) (ios.open line) EmptyString d with
  | Some toks => toks
  | None => []
  end.

(** ** std::stoi (base 10)

    [strtol] underneath: leading white space is skipped, one sign is
    accepted, the longest run of digits is converted and whatever follows is
    ignored.  No digit: [std::invalid_argument]; a value that does not fit
    an [int]: [std::out_of_range]. *)

Definition INT_MIN : Z := - 2 ^ 31.
Definition INT_MAX : Z := 2 ^ 31 - 1.

Definition isspace (c : ascii) : bool :=
  let n := nat_of_ascii c in
  (Nat.eqb n 32 || (Nat.leb 9 n && Nat.leb n 13))%bool.

Definition digit (c : ascii) : option Z :=
  let n := Z.of_nat (nat_of_ascii c) in
  if (48 <=? n) && (n <=? 57) then Some (n - 48) else None.

Fixpoint skip_space (s : string) : string :=
  match s with
  | String c s' => if isspace c then skip_space s' else s
  | EmptyString => EmptyString
  end.

Fixpoint digits (acc : Z) (seen : bool) (s : string) : option Z :=
  match s with
  | String c s' =>
      match digit c with
      | Some v => digits (10 * acc + v) true s'
      | None => if seen then Some acc else None
      end
  | EmptyString => if seen then Some acc else None
  end.

Definition stoi (s : string) : result Z :=
  let s1 := skip_space s in
  let '(neg, s2) :=
    match s1 with
    | String "-"%char r => (true, r)
    | String "+"%char r => (false, r)
    | _ => (false, s1)
    end in
  match digits 0 false s2 with
  | None => Throw invalid_argument
  | Some v =>
      let v := if neg then - v else v in
      if (INT_MIN <=? v) && (v <=? INT_MAX) then Ok v else Throw out_of_range
  end.

(** ** What the readers take from other libraries

    [std::stof] and [boost::geometry::read_wkt] are not code of this
    repository and their values are never inspected by the readers, so the
    development is parametric in them: [double] is the C++ type of a
    coordinate or timestamp, [double_zero] the literal [0] the locals start
    from. *)

Class Externals : Type := {
  double : Type;
  double_zero : double;
  stof : string -> result double;
  read_wkt : string -> result (list (double * double))
}.

Notation "x <- e ;; k" :=
  (match e with Ok x => k | Throw err => Throw err end)
  (at level 61, e at next level, right associativity).

(** Modelled from the spec: the value the index members ([id_idx],
    [geom_idx], [x_idx], [y_idx], [time_idx]) are declared with in
    io/trajectory_reader.hpp, which is not under src/.  It is the "absent"
    marker of the field schema; the constructors test [idx < 0] and
    [has_time_stamp] compares against [-1]. *)
Definition unresolved : Z := -1.

Section Trajectories.
Variable C : Type.

(** Modelled from the spec: [LineString], [Trajectory] and
    [TemporalTrajectory] are declared in headers that are not under src/.
    A line string is an ordered sequence of 2D points. *)
Definition LineString : Type := list (C * C).

(** [geom.add_point(x,y)] appends a point. *)
Definition add_point (g : LineString) (x y : C) : LineString :=
  g ++ [(x, y)].

(** Modelled from the spec: an identifier and a geometry, in the order of
    the aggregate initialisation [Trajectory{trid,geom}]. *)
Record Trajectory : Type := mkTrajectory {
  id : Z;
  geom : LineString
}.

(** Modelled from the spec: a trajectory and its sequence of timestamps, in
    the order of [TemporalTrajectory{prev_id,geom,timestamps}]. *)
Record TemporalTrajectory : Type := mkTemporalTrajectory {
  tid : Z;
  tgeom : LineString;
  timestamps : list C
}.

End Trajectories.

Arguments add_point {C} g x y.
Arguments mkTrajectory {C} id geom.
Arguments id {C} t.
Arguments geom {C} t.
Arguments mkTemporalTrajectory {C} tid tgeom timestamps.
Arguments tid {C} t.
Arguments tgeom {C} t.
Arguments timestamps {C} t.

(** ** ITrajectoryReader

    The abstract reader: the two virtual member functions the batch
    operations are written against.  [has_next_feature] is not [const] in
    the source (it peeks into the stream), so it returns the reader too. *)

Module ITrajectoryReader.

Class Interface (R T : Type) : Type := {
  has_next_feature : R -> bool * R;
  read_next_trajectory : R -> result T * R
}.

Section Batch.
Context {R T : Type} {I : Interface R T}.

(** [while (i<N && has_next_feature()) { push_back(read_next_trajectory()); ++i; }]
    with [k] standing for [N - i]: when [i<N] fails, [has_next_feature] is
    not called. *)
Fixpoint read_next_N_loop (k : nat) (r : R) (trajectories : list T)
    : result (list T) * R :=
  match k with
  | O => (Ok trajectories, r)
  | S k' =>
      let (more, r1) := has_next_feature r in
      if more then
        match read_next_trajectory r1 with
        | (Ok t, r2) => read_next_N_loop k' r2 (trajectories ++ [t])
        | (Throw e, r2) => (Throw e, r2)
        end
      else (Ok trajectories, r1)
  end.

Definition read_next_N_trajectories (N : Z) (r : R) : result (list T) * R :=
  read_next_N_loop (Z.to_nat N) r [].

(** [while (has_next_feature()) push_back(read_next_trajectory());]
    Nothing bounds this loop for an arbitrary reader: [None] is a run that
    needs more than [fuel] iterations. *)
Fixpoint read_all_loop (fuel : nat) (r : R) (trajectories : list T)
    : option (result (list T) * R) :=
  let (more, r1) := has_next_feature r in
  if more then
    match fuel with
    | O => None
    | S fuel' =>
        match read_next_trajectory r1 with
        | (Ok t, r2) => read_all_loop fuel' r2 (trajectories ++ [t])
        | (Throw e, r2) => Some (Throw e, r2)
        end
    end
  else Some (Ok trajectories, r1).

Definition read_all_trajectories (fuel : nat) (r : R)
    : option (result (list T) * R) :=
  read_all_loop fuel r [].

End Batch.
End ITrajectoryReader.

(** ** CSVTrajectoryReader: one row, one trajectory *)

Module CSVTrajectoryReader.
Section Reader.
Context {E : Externals}.

Record t : Type := mk {
  ifs : ios.istream;
  id_idx : Z;
  geom_idx : Z;
  delim : ascii
}.

(** The header loop of the constructor. *)
Fixpoint header_loop (id_name geom_name : string) (toks : list string)
    (i : Z) (id_idx geom_idx : Z) : Z * Z :=
  match toks with
  | [] => (id_idx, geom_idx)
  | intermediate :: toks' =>
      let id_idx := if String.eqb intermediate id_name then i else id_idx in
      let geom_idx := if String.eqb intermediate geom_name then i else geom_idx in
      header_loop id_name geom_name toks' (i + 1) id_idx geom_idx
  end.

(** The constructor on a file holding [file]; [None] is
    [std::exit(EXIT_FAILURE)].  [delim] is a member initialised in the
    header file, hence an argument here. *)
Definition make (file : string) (delim : ascii) (id_name geom_name : string)
    : option t :=
  let (line, ifs1) := ios.getline (ios.open file) EmptyString LF in
  let (id_idx, geom_idx) :=
    header_loop id_name geom_name (tokenize line delim) 0 unresolved unresolved in
  if (id_idx <? 0) || (geom_idx <? 0) then None
  else Some (mk ifs1 id_idx geom_idx delim).

(** The body of [read_next_trajectory]'s loop over the fields. *)
Fixpoint field_loop (r : t) (toks : list string) (index : Z)
    (trid : Z) (geom : LineString double) : result (Z * LineString double) :=
  match toks with
  | [] => Ok (trid, geom)
  | intermediate :: toks' =>
      trid <- (if index =? id_idx r then stoi intermediate else Ok trid) ;;
      geom <- (if index =? geom_idx r then read_wkt intermediate else Ok geom) ;;
      field_loop r toks' (index + 1) trid geom
  end.

Definition read_next_trajectory (r : t) : result (Trajectory double) * t :=
  let (line, ifs1) := ios.getline (ifs r) EmptyString LF in
  let r1 := mk ifs1 (id_idx r) (geom_idx r) (delim r) in
  match field_loop r1 (tokenize line (delim r1)) 0 0 [] with
  | Ok (trid, geom) => (Ok (mkTrajectory trid geom), r1)
  | Throw e => (Throw e, r1)
  end.

Definition has_next_feature (r : t) : bool * t :=
  let (c, ifs1) := ios.peek (ifs r) in
  (match c with Some _ => true | None => false end,
   mk ifs1 (id_idx r) (geom_idx r) (delim r)).

Definition reset_cursor (r : t) : t :=
  let ifs1 := ios.seekg_beg (ios.clear (ifs r)) in
  let (_, ifs2) := ios.getline ifs1 EmptyString LF in
  mk ifs2 (id_idx r) (geom_idx r) (delim r).

Definition close (r : t) : t :=
  mk (ios.close (ifs r)) (id_idx r) (geom_idx r) (delim r).

#[export] Instance reader : ITrajectoryReader.Interface t (Trajectory double) := {
  ITrajectoryReader.has_next_feature := has_next_feature;
  ITrajectoryReader.read_next_trajectory := read_next_trajectory
}.

End Reader.
End CSVTrajectoryReader.

(** ** CSVTemporalPointReader: the point-stream assembler *)

Module CSVTemporalPointReader.
Section Reader.
Context {E : Externals}.

Record t : Type := mk {
  ifs : ios.istream;
  id_idx : Z;
  x_idx : Z;
  y_idx : Z;
  time_idx : Z;
  delim : ascii;
  prev_line : string
}.

Definition set_ifs (r : t) (s : ios.istream) : t :=
  mk s (id_idx r) (x_idx r) (y_idx r) (time_idx r) (delim r) (prev_line r).

Definition set_prev_line (r : t) (l : string) : t :=
  mk (ifs r) (id_idx r) (x_idx r) (y_idx r) (time_idx r) (delim r) l.

(** The header loop of the constructor: four independent tests per token,
    none of which ends the loop. *)
Fixpoint header_loop (id_name x_name y_name time_name : string)
    (toks : list string) (i : Z) (idx : Z * Z * Z * Z) : Z * Z * Z * Z :=
  match toks with
  | [] => idx
  | intermediate :: toks' =>
      let '(id_idx, x_idx, y_idx, time_idx) := idx in
      let id_idx := if String.eqb intermediate id_name then i else id_idx in
      let x_idx := if String.eqb intermediate x_name then i else x_idx in
      let y_idx := if String.eqb intermediate y_name then i else y_idx in
      let time_idx := if String.eqb intermediate time_name then i else time_idx in
      header_loop id_name x_name y_name time_name toks' (i + 1)
        (id_idx, x_idx, y_idx, time_idx)
  end.

(** The constructor on a file holding [file]; [None] is
    [std::exit(EXIT_FAILURE)].  A missing time column only logs a
    warning.  [delim] is a member initialised in the header file, hence an
    argument here, and [prev_line] starts as the empty string a
    [std::string] member is constructed with. *)
Definition make (file : string) (delim : ascii)
    (id_name x_name y_name time_name : string) : option t :=
  let (line, ifs1) := ios.getline (ios.open file) EmptyString LF in
  let '(id_idx, x_idx, y_idx, time_idx) :=
    header_loop id_name x_name y_name time_name (tokenize line delim) 0
      (unresolved, unresolved, unresolved, unresolved) in
  if (id_idx <? 0) || (x_idx <? 0) || (y_idx <? 0) then None
  else Some (mk ifs1 id_idx x_idx y_idx time_idx delim EmptyString).

Definition has_time_stamp (r : t) : bool := negb (time_idx r =? -1).

Definition has_next_feature (r : t) : bool * t :=
  let (c, ifs1) := ios.peek (ifs r) in
  (match c with Some _ => true | None => false end, set_ifs r ifs1).

(** The loop over the fields of one record.  [temporal] tells the two
    assembling member functions apart: only
    [read_next_temporal_trajectory] has the test on [time_idx]. *)
Fixpoint field_loop (temporal : bool) (r : t) (toks : list string)
    (index : Z) (id : Z) (x y timestamp : double)
    : result (Z * double * double * double) :=
  match toks with
  | [] => Ok (id, x, y, timestamp)
  | intermediate :: toks' =>
      id <- (if index =? id_idx r then stoi intermediate else Ok id) ;;
      x <- (if index =? x_idx r then stof intermediate else Ok x) ;;
      y <- (if index =? y_idx r then stof intermediate else Ok y) ;;
      timestamp <- (if temporal && (index =? time_idx r)
                    then stof intermediate else Ok timestamp) ;;
      field_loop temporal r toks' (index + 1) id x y timestamp
  end.

(** The locals of the assembling functions that live across iterations. *)
Record locals : Type := mkLocals {
  l_geom : LineString double;
  l_timestamps : list double;
  on_same_trajectory : bool;
  first_observation : bool;
  prev_id : Z;
  line : string
}.

Definition initial_locals : locals :=
  mkLocals [] [] true true (-1) EmptyString.

(** Fetching the record of one iteration: the carried-over line if there
    is one, the next line of the file otherwise. *)
Definition next_line (r : t) (line : string) : string * t :=
  match prev_line r with
  | EmptyString =>
      let (line', ifs1) := ios.getline (ifs r) line LF in (line', set_ifs r ifs1)
  | String _ _ => (prev_line r, set_prev_line r EmptyString)
  end.

(** What one iteration does once the record is parsed. *)
Definition step_locals (temporal : bool) (r : t) (lc : locals) (line : string)
    (id : Z) (x y timestamp : double) : locals :=
  let same := (prev_id lc =? id) || first_observation lc in
  let geom := if same then add_point (l_geom lc) x y else l_geom lc in
  let timestamps :=
    if same && temporal && has_time_stamp r
    then l_timestamps lc ++ [timestamp] else l_timestamps lc in
  let on_same :=
    if negb (prev_id lc =? id) && negb (first_observation lc)
    then false else on_same_trajectory lc in
  mkLocals geom timestamps on_same false id line.

(** [while (on_same_trajectory && has_next_feature()) { ... }].  The second
    operand is only evaluated when the first holds.  [None] is a run that
    needs more than [fuel] iterations. *)
Fixpoint assemble (temporal : bool) (fuel : nat) (r : t) (lc : locals)
    : option (result locals * t) :=
  if on_same_trajectory lc then
    let (more, r1) := has_next_feature r in
    if more then
      match fuel with
      | O => None
      | S fuel' =>
          let (line, r2) := next_line r1 (line lc) in
          match field_loop temporal r2 (tokenize line (delim r2)) 0
                  0 double_zero double_zero double_zero with
          | Throw e => Some (Throw e, r2)
          | Ok (id, x, y, timestamp) =>
              let lc' := step_locals temporal r2 lc line id x y timestamp in
              let r3 := if on_same_trajectory lc' then r2 else set_prev_line r2 line in
              assemble temporal fuel' r3 lc'
          end
      end
    else Some (Ok lc, r1)
  else Some (Ok lc, r).

(** Every iteration but one carried-over record takes at least one
    character off the file, so this many iterations are enough
    ([assemble_total] below). *)
Definition enough_fuel (r : t) : nat := S (String.length (ios.unread (ifs r))).

Definition run (temporal : bool) (r : t) : result locals * t :=
  match assemble temporal (enough_fuel r) r initial_locals with
  | Some out => out
  | None => (Ok initial_locals, r)
  end.

Definition read_next_temporal_trajectory (r : t)
    : result (TemporalTrajectory double) * t :=
  match run true r with
  | (Ok lc, r') =>
      (Ok (mkTemporalTrajectory (prev_id lc) (l_geom lc) (l_timestamps lc)), r')
  | (Throw e, r') => (Throw e, r')
  end.

Definition read_next_trajectory (r : t) : result (Trajectory double) * t :=
  match run false r with
  | (Ok lc, r') => (Ok (mkTrajectory (prev_id lc) (l_geom lc)), r')
  | (Throw e, r') => (Throw e, r')
  end.

Definition reset_cursor (r : t) : t :=
  let ifs1 := ios.seekg_beg (ios.clear (ifs r)) in
  let (_, ifs2) := ios.getline ifs1 EmptyString LF in
  set_ifs r ifs2.

Definition close (r : t) : t := set_ifs r (ios.close (ifs r)).

#[export] Instance reader : ITrajectoryReader.Interface t (Trajectory double) := {
  ITrajectoryReader.has_next_feature := has_next_feature;
  ITrajectoryReader.read_next_trajectory := read_next_trajectory
}.

End Reader.
End CSVTemporalPointReader.

(** ** CSVTemporalTrajectoryReader: one row, one trajectory with its times

    [string2time] reads the time column with [ss >> v] on a
    [std::stringstream].  The extraction of one [double] is library code:
    [extract_double s] is the value read from a stream holding [s] and what
    the stream still holds afterwards, [None] when the extraction fails.  A
    successful extraction takes at least one character. *)

Class Extraction (E : Externals) : Type := {
  extract_double : string -> option (double * string);
  extract_double_consumes :
    forall s v rest,
      extract_double s = Some (v, rest) ->
      (String.length rest < String.length s)%nat
}.

Module CSVTemporalTrajectoryReader.
Section Reader.
Context {E : Externals} {X : Extraction E}.

Record t : Type := mk {
  ifs : ios.istream;
  id_idx : Z;
  geom_idx : Z;
  time_idx : Z;
  delim : ascii
}.

Definition set_ifs (r : t) (s : ios.istream) : t :=
  mk s (id_idx r) (geom_idx r) (time_idx r) (delim r).

(** The header loop of the constructor. *)
Fixpoint header_loop (id_name geom_name time_name : string)
    (toks : list string) (i : Z) (idx : Z * Z * Z) : Z * Z * Z :=
  match toks with
  | [] => idx
  | intermediate :: toks' =>
      let '(id_idx, geom_idx, time_idx) := idx in
      let id_idx := if String.eqb intermediate id_name then i else id_idx in
      let geom_idx := if String.eqb intermediate geom_name then i else geom_idx in
      let time_idx := if String.eqb intermediate time_name then i else time_idx in
      header_loop id_name geom_name time_name toks' (i + 1)
        (id_idx, geom_idx, time_idx)
  end.

(** The constructor on a file holding [file]; [None] is
    [std::exit(EXIT_FAILURE)].  A missing time column only logs a
    warning. *)
Definition make (file : string) (delim : ascii)
    (id_name geom_name time_name : string) : option t :=
  let (line, ifs1) := ios.getline (ios.open file) EmptyString LF in
  let '(id_idx, geom_idx, time_idx) :=
    header_loop id_name geom_name time_name (tokenize line delim) 0
      (unresolved, unresolved, unresolved) in
  if (id_idx <? 0) || (geom_idx <? 0) then None
  else Some (mk ifs1 id_idx geom_idx time_idx delim).

(** [while (ss >> v) { values.push_back(v); if (ss.peek()==',') ss.ignore(); }]
    on what the stream still holds.  [None] is a run that needs more than
    [fuel] iterations. *)
Fixpoint string2time_loop (fuel : nat) (ss : string) (values : list double)
    : option (list double) :=
  match extract_double ss with
  | None => Some values
  | Some (v, rest) =>
      match fuel with
      | O => None
      | S fuel' =>
          let values := values ++ [v] in
          let rest :=
            match rest with
            | String c rest' => if Ascii.eqb c ","%char then rest' else rest
            | EmptyString => rest
            end in
          string2time_loop fuel' rest values
      end
  end.

Definition string2time (str : string) : list double :=
  match string2time_loop (String.length str) str [] with
  | Some values => values
  | None => []
  end.

(** The loop over the fields in [read_next_temporal_trajectory]. *)
Fixpoint temporal_field_loop (r : t) (toks : list string) (index : Z)
    (trid : Z) (geom : LineString double) (timestamps : list double)
    : result (Z * LineString double * list double) :=
  match toks with
  | [] => Ok (trid, geom, timestamps)
  | intermediate :: toks' =>
      trid <- (if index =? id_idx r then stoi intermediate else Ok trid) ;;
      geom <- (if index =? geom_idx r then read_wkt intermediate else Ok geom) ;;
      let timestamps :=
        if index =? time_idx r then string2time intermediate else timestamps in
      temporal_field_loop r toks' (index + 1) trid geom timestamps
  end.

Definition read_next_temporal_trajectory (r : t)
    : result (TemporalTrajectory double) * t :=
  let (line, ifs1) := ios.getline (ifs r) EmptyString LF in
  let r1 := set_ifs r ifs1 in
  match temporal_field_loop r1 (tokenize line (delim r1)) 0 0 [] [] with
  | Ok (trid, geom, timestamps) =>
      (Ok (mkTemporalTrajectory trid geom timestamps), r1)
  | Throw e => (Throw e, r1)
  end.

(** The loop over the fields in [read_next_trajectory]. *)
Fixpoint field_loop (r : t) (toks : list string) (index : Z)
    (trid : Z) (geom : LineString double) : result (Z * LineString double) :=
  match toks with
  | [] => Ok (trid, geom)
  | intermediate :: toks' =>
      trid <- (if index =? id_idx r then stoi intermediate else Ok trid) ;;
      geom <- (if index =? geom_idx r then read_wkt intermediate else Ok geom) ;;
      field_loop r toks' (index + 1) trid geom
  end.

Definition read_next_trajectory (r : t) : result (Trajectory double) * t :=
  let (line, ifs1) := ios.getline (ifs r) EmptyString LF in
  let r1 := set_ifs r ifs1 in
  match field_loop r1 (tokenize line (delim r1)) 0 0 [] with
  | Ok (trid, geom) => (Ok (mkTrajectory trid geom), r1)
  | Throw e => (Throw e, r1)
  end.

Definition has_next_feature (r : t) : bool * t :=
  let (c, ifs1) := ios.peek (ifs r) in
  (match c with Some _ => true | None => false end, set_ifs r ifs1).

Definition reset_cursor (r : t) : t :=
  let ifs1 := ios.seekg_beg (ios.clear (ifs r)) in
  let (_, ifs2) := ios.getline ifs1 EmptyString LF in
  set_ifs r ifs2.

Definition close (r : t) : t := set_ifs r (ios.close (ifs r)).

Definition has_time_stamp (r : t) : bool := negb (time_idx r =? -1).

#[export] Instance reader : ITrajectoryReader.Interface t (Trajectory double) := {
  ITrajectoryReader.has_next_feature := has_next_feature;
  ITrajectoryReader.read_next_trajectory := read_next_trajectory
}.

End Reader.
End CSVTemporalTrajectoryReader.

(** * Vocabulary of the statements *)

(** ** Fields of a line, as the specification words them *)

(** The fields of a line as the specification words them: the strings
    between delimiter occurrences, every one of them kept. *)
Fixpoint split_all (d : ascii) (s : string) : list string :=
  match s with
  | EmptyString => [EmptyString]
  | String c s' =>
      if Ascii.eqb c d then EmptyString :: split_all d s'
      else match split_all d s' with
           | t :: ts => String c t :: ts
           | [] => [String c EmptyString]
           end
  end.

(** [l] without its last element when that element is the empty string. *)
Definition drop_last_empty (l : list string) : list string :=
  match last l (String "x" EmptyString) with
  | EmptyString => removelast l
  | _ => l
  end.

(** Joining fields back with the delimiter, to say what [split_all]
    computes. *)
Fixpoint join (d : ascii) (l : list string) : string :=
  match l with
  | [] => EmptyString
  | [t] => t
  | t :: ts => (t ++ String d (join d ts))%string
  end.

(** The character [d] occurs in [s]. *)
Fixpoint occurs (d : ascii) (s : string) : bool :=
  match s with
  | EmptyString => false
  | String c s' => Ascii.eqb c d || occurs d s'
  end.

(** ** Header resolution *)

(** What each index of a header loop goes through: the four (or two) tests
    of the loop body are independent of each other. *)
Fixpoint resolve (name : string) (toks : list string) (i : Z) (idx : Z) : Z :=
  match toks with
  | [] => idx
  | intermediate :: toks' =>
      resolve name toks' (i + 1) (if String.eqb intermediate name then i else idx)
  end.

(** [k] is the position of the last token equal to [name]. *)
Definition last_occurrence (name : string) (toks : list string) (k : nat) : Prop :=
  nth_error toks k = Some name
  /\ forall j, (k < j)%nat -> nth_error toks j <> Some name.

(** [k] is the position of the first token equal to [name]. *)
Definition first_occurrence (name : string) (toks : list string) (k : nat) : Prop :=
  nth_error toks k = Some name
  /\ forall j, (j < k)%nat -> nth_error toks j <> Some name.

(** The tokens of the first line of a file. *)
Definition header_tokens (file : string) (d : ascii) : list string :=
  tokenize (fst (ios.getline (ios.open file) EmptyString LF)) d.

(** ** The point-stream assembler *)

Section AssemblerVocabulary.
Import CSVTemporalPointReader.
Context {E : Externals}.

(** The schema of a reader: what no member function changes after
    construction. *)
Definition schema (r : t) : Z * Z * Z * Z * ascii :=
  (id_idx r, x_idx r, y_idx r, time_idx r, delim r).

(** The timestamps collected so far are as many as the points when the
    reader is [timed], and none otherwise. *)
Definition parallel (timed : bool) (lc : locals) : Prop :=
  if timed then length (l_timestamps lc) = length (l_geom lc)
  else l_timestamps lc = [].

(** The number of carried-over records: 0 or 1. *)
Definition pending (r : t) : nat :=
  match prev_line r with EmptyString => 0 | String _ _ => 1 end.



End AssemblerVocabulary.

(** A plain read dressed as a temporal one with no timestamps. *)
Definition without_timestamps {E : Externals}
    (out : result (Trajectory double) * CSVTemporalPointReader.t)
    : result (TemporalTrajectory double) * CSVTemporalPointReader.t :=
  match out with
  | (Ok tr, r') => (Ok (mkTemporalTrajectory (id tr) (geom tr) []), r')
  | (Throw e, r') => (Throw e, r')
  end.

(** ** The whole-row reader *)

Section RowVocabulary.
Import CSVTrajectoryReader.

(** The reader once [read_next_trajectory] has taken its line. *)
Definition after_line (r : t) : t :=
  mk (snd (ios.getline (ifs r) EmptyString LF)) (id_idx r) (geom_idx r) (delim r).

(** The fields of the line [read_next_trajectory] takes. *)
Definition next_fields (r : t) : list string :=
  tokenize (fst (ios.getline (ifs r) EmptyString LF)) (delim r).

(** The token a loop that has reached [index] will meet at [idx]. *)
Definition field_from (toks : list string) (index idx : Z) : option string :=
  if idx <? index then None else nth_error toks (Z.to_nat (idx - index)).

(** The token of column [idx], if the line has one. *)
Definition field_at (toks : list string) (idx : Z) : option string :=
  field_from toks 0 idx.


End RowVocabulary.

(** ** An instance to run the readers on

    Coordinates written as decimal integers, on which [std::stof] agrees
    with [strtol]'s reading, and a [read_wkt] that knows two line strings. *)

Definition stof_integral (s : string) : result Z :=
  let s1 := skip_space s in
  let '(neg, s2) :=
    match s1 with
    | String "-"%char r => (true, r)
    | String "+"%char r => (false, r)
    | _ => (false, s1)
    end in
  match digits 0 false s2 with
  | None => Throw invalid_argument
  | Some v => Ok (if neg then - v else v)
  end.

Definition read_wkt_sample (s : string) : result (list (Z * Z)) :=
  if String.eqb s "LINESTRING(0 0,1 1)" then Ok [(0, 0); (1, 1)]
  else if String.eqb s "LINESTRING(5 5,6 6,7 7)" then Ok [(5, 5); (6, 6); (7, 7)]
  else Throw read_wkt_exception.

Definition sample : Externals :=
  {| double := Z; double_zero := 0; stof := stof_integral; read_wkt := read_wkt_sample |}.

(** A text file from its lines, each ended by a line feed. *)
Fixpoint text_file (lines : list string) : string :=
  match lines with
  | [] => EmptyString
  | l :: ls => (l ++ String LF (text_file ls))%string
  end.

Definition points_file : string :=
  text_file ["id,x,y"; "1,0,0"; "1,1,1"; "2,5,5"].

Definition duplicate_header_file : string :=
  text_file ["id,x,y,id"; "7,0,0,1"].

Definition rows_file : string :=
  text_file ["id;geom"; "1;LINESTRING(0 0,1 1)"; "2;LINESTRING(5 5,6 6,7 7)"].

(** The whole-row reader right after construction on [rows_file]. *)
Definition rows_reader : CSVTrajectoryReader.t :=
  CSVTrajectoryReader.mk
    (ios.mk rows_file
       (text_file ["1;LINESTRING(0 0,1 1)"; "2;LINESTRING(5 5,6 6,7 7)"])
       true false false)
    0 1 ";"%char.

Definition timed_points_file : string :=
  text_file ["id,x,y,timestamp"; "1,0,0,10"; "1,1,1,20"; "1,2,2,30"].

(** The assembler right after construction on [timed_points_file]. *)
Definition timed_points_reader : CSVTemporalPointReader.t :=
  CSVTemporalPointReader.mk
    (ios.mk timed_points_file (text_file ["1,0,0,10"; "1,1,1,20"; "1,2,2,30"])
       true false false)
    0 1 2 3 ","%char EmptyString.

(** The assembler right after construction on [points_file], which has no
    time column. *)
Definition points_reader : CSVTemporalPointReader.t :=
  CSVTemporalPointReader.mk
    (ios.mk points_file (text_file ["1,0,0"; "1,1,1"; "2,5,5"]) true false false)
    0 1 2 (-1) ","%char EmptyString.

(** [timed_points_reader] once its three records are read. *)
Definition timed_points_reader_done : CSVTemporalPointReader.t :=
  CSVTemporalPointReader.mk
    (ios.mk timed_points_file EmptyString true true false)
    0 1 2 3 ","%char EmptyString.

(** Readers over files that hold a header and nothing else. *)
Definition drained_points_reader : CSVTemporalPointReader.t :=
  CSVTemporalPointReader.mk
    (ios.mk (text_file ["id,x,y"]) EmptyString true false false)
    0 1 2 (-1) ","%char EmptyString.

Definition drained_rows_reader : CSVTrajectoryReader.t :=
  CSVTrajectoryReader.mk
    (ios.mk (text_file ["id;geom"]) EmptyString true false false)
    0 1 ";"%char.






(** Whole-row readers whose next line is empty, lacks the geometry (the
    line ends in the delimiter) or lacks the identifier (column 2). *)
Definition short_rows_reader (line : string) (id_idx geom_idx : Z)
    : CSVTrajectoryReader.t :=
  CSVTrajectoryReader.mk
    (ios.mk (text_file ["id;geom"; line]) (text_file [line]) true false false)
    id_idx geom_idx ";"%char.

(** Draining a point-stream reader through the interface. *)
Definition drain_points (r : CSVTemporalPointReader.t)
    : option (result (list (Trajectory Z)) * CSVTemporalPointReader.t) :=
  ITrajectoryReader.read_all_trajectories
    (I := CSVTemporalPointReader.reader (E := sample)) 10 r.

(** * Vocabulary of the further properties *)

(** The states a reader goes through from [r0] under the operations
    [op]. *)
Inductive reached {S : Type} (op : S -> S -> Prop) (r0 : S) : S -> Prop :=
| reached_start : reached op r0 r0
| reached_step (r r' : S) : reached op r0 r -> op r r' -> reached op r0 r'.

Section Operations.
Context {E : Externals} {X : Extraction E}.

(** The member functions of the whole-row reader that leave it open. *)
Inductive row_op (r : CSVTrajectoryReader.t) : CSVTrajectoryReader.t -> Prop :=
| row_has_next : row_op r (snd (CSVTrajectoryReader.has_next_feature r))
| row_read : row_op r (snd (CSVTrajectoryReader.read_next_trajectory r))
| row_reset : row_op r (CSVTrajectoryReader.reset_cursor r).

(** The member functions of the point-stream reader that leave it open. *)
Inductive point_op (r : CSVTemporalPointReader.t)
    : CSVTemporalPointReader.t -> Prop :=
| point_has_next : point_op r (snd (CSVTemporalPointReader.has_next_feature r))
| point_read : point_op r (snd (CSVTemporalPointReader.read_next_trajectory r))
| point_read_temporal :
    point_op r (snd (CSVTemporalPointReader.read_next_temporal_trajectory r))
| point_reset : point_op r (CSVTemporalPointReader.reset_cursor r).

(** The member functions of the whole-row temporal reader that leave it
    open. *)
Inductive temporal_row_op (r : CSVTemporalTrajectoryReader.t)
    : CSVTemporalTrajectoryReader.t -> Prop :=
| temporal_row_has_next :
    temporal_row_op r (snd (CSVTemporalTrajectoryReader.has_next_feature r))
| temporal_row_read :
    temporal_row_op r (snd (CSVTemporalTrajectoryReader.read_next_trajectory r))
| temporal_row_read_temporal :
    temporal_row_op r
      (snd (CSVTemporalTrajectoryReader.read_next_temporal_trajectory r))
| temporal_row_reset :
    temporal_row_op r (CSVTemporalTrajectoryReader.reset_cursor r).

(** Any member function, [close] included. *)
Definition row_op_or_close (r r' : CSVTrajectoryReader.t) : Prop :=
  row_op r r' \/ r' = CSVTrajectoryReader.close r.

Definition point_op_or_close (r r' : CSVTemporalPointReader.t) : Prop :=
  point_op r r' \/ r' = CSVTemporalPointReader.close r.

(** What the whole-row reader makes of one line. *)
Definition parse_row (r : CSVTrajectoryReader.t) (line : string)
    : result (Trajectory double) :=
  match CSVTrajectoryReader.field_loop r
          (tokenize line (CSVTrajectoryReader.delim r)) 0 0 [] with
  | Ok (trid, geom) => Ok (mkTrajectory trid geom)
  | Throw e => Throw e
  end.

(** What the point-stream reader makes of one line: identifier, x, y and
    timestamp. *)
Definition parse_record (temporal : bool) (r : CSVTemporalPointReader.t)
    (line : string) : result (Z * double * double * double) :=
  CSVTemporalPointReader.field_loop temporal r
    (tokenize line (CSVTemporalPointReader.delim r)) 0
    0 double_zero double_zero double_zero.

Definition record_id (rec : Z * double * double * double) : Z :=
  let '(i, _, _, _) := rec in i.

Definition record_point (rec : Z * double * double * double) : double * double :=
  let '(_, x, y, _) := rec in (x, y).

Definition record_time (rec : Z * double * double * double) : double :=
  let '(_, _, _, timestamp) := rec in timestamp.

End Operations.

(** The lines a point-stream reader has ahead of it: the carried-over one,
    if any, then those of the file. *)
Definition lines_ahead (r : CSVTemporalPointReader.t) (file_lines : list string)
    : list string :=
  match CSVTemporalPointReader.prev_line r with
  | EmptyString => file_lines
  | String _ _ => CSVTemporalPointReader.prev_line r :: file_lines
  end.

(** The point-stream reader with its file at the lines [file_lines] and
    [pending] carried over. *)
Definition at_lines (r : CSVTemporalPointReader.t) (file_lines : list string)
    (pending : string) : CSVTemporalPointReader.t :=
  CSVTemporalPointReader.set_prev_line
    (CSVTemporalPointReader.set_ifs r
       (ios.mk (ios.content (CSVTemporalPointReader.ifs r)) (text_file file_lines)
          (ios.is_open (CSVTemporalPointReader.ifs r)) false false))
    pending.

(** The point-stream reader once it has found the end of its file, with
    nothing carried over. *)
Definition at_end (r : CSVTemporalPointReader.t) : CSVTemporalPointReader.t :=
  CSVTemporalPointReader.set_prev_line
    (CSVTemporalPointReader.set_ifs r
       (ios.mk (ios.content (CSVTemporalPointReader.ifs r)) EmptyString
          (ios.is_open (CSVTemporalPointReader.ifs r)) true false))
    EmptyString.

(** The whole-row reader once it has found the end of its file. *)
Definition row_at_end (r : CSVTrajectoryReader.t) : CSVTrajectoryReader.t :=
  CSVTrajectoryReader.mk
    (ios.mk (ios.content (CSVTrajectoryReader.ifs r)) EmptyString
       (ios.is_open (CSVTrajectoryReader.ifs r)) true false)
    (CSVTrajectoryReader.id_idx r) (CSVTrajectoryReader.geom_idx r)
    (CSVTrajectoryReader.delim r).

(** A temporal trajectory without its timestamps. *)
Definition forget_timestamps {C : Type} (tt : TemporalTrajectory C) : Trajectory C :=
  mkTrajectory (tid tt) (tgeom tt).

(** The whole-row reader once it has read the two rows of [rows_file] and
    found no more. *)
Definition rows_reader_done : CSVTrajectoryReader.t :=
  CSVTrajectoryReader.mk (ios.mk rows_file EmptyString true true false) 0 1 ";"%char.



(** A stream that is closed and has nothing to give, or has failed. *)
Definition shut (s : ios.istream) : Prop :=
  ios.is_open s = false /\ (ios.unread s = EmptyString \/ ios.failbit s = true).

(** The file behind a point-stream reader and its schema, which no member
    function changes. *)
Definition point_frame (r r' : CSVTemporalPointReader.t) : Prop :=
  ios.content (CSVTemporalPointReader.ifs r')
  = ios.content (CSVTemporalPointReader.ifs r)
  /\ ios.is_open (CSVTemporalPointReader.ifs r')
     = ios.is_open (CSVTemporalPointReader.ifs r)
  /\ schema r' = schema r.

(** The assembler after the first read of [points_file]: the record
    [2,5,5] is carried over. *)
Definition points_reader_pending : CSVTemporalPointReader.t :=
  CSVTemporalPointReader.mk
    (ios.mk points_file EmptyString true false false)
    0 1 2 (-1) ","%char "2,5,5".

(** What a reader has collected between [lc] and [lc'] are the points of
    [recs], and their timestamps when it collects them. *)
Definition collected {E : Externals} (timed : bool)
    (lc lc' : CSVTemporalPointReader.locals)
    (recs : list (Z * double * double * double)) : Prop :=
  CSVTemporalPointReader.l_geom lc'
  = CSVTemporalPointReader.l_geom lc ++ map record_point recs
  /\ CSVTemporalPointReader.l_timestamps lc'
     = CSVTemporalPointReader.l_timestamps lc
       ++ (if timed then map record_time recs else []).

(** Two states of the assembling loop that differ in timestamps only. *)
Definition same_but_times {E : Externals}
    (lc lc0 : CSVTemporalPointReader.locals) : Prop :=
  CSVTemporalPointReader.l_geom lc = CSVTemporalPointReader.l_geom lc0
  /\ CSVTemporalPointReader.on_same_trajectory lc
     = CSVTemporalPointReader.on_same_trajectory lc0
  /\ CSVTemporalPointReader.first_observation lc
     = CSVTemporalPointReader.first_observation lc0
  /\ CSVTemporalPointReader.prev_id lc = CSVTemporalPointReader.prev_id lc0
  /\ CSVTemporalPointReader.line lc = CSVTemporalPointReader.line lc0.

(** ** An extraction of numbers to run [string2time] on

    Numbers written as decimal integers, read the way [stof_integral] reads
    them, with what follows the digits left in the stream. *)

Fixpoint read_digits (acc : Z) (seen : bool) (s : string) : option (Z * string) :=
  match s with
  | String c s' =>
      match digit c with
      | Some v => read_digits (10 * acc + v) true s'
      | None => if seen then Some (acc, s) else None
      end
  | EmptyString => if seen then Some (acc, EmptyString) else None
  end.

Definition extract_integral (s : string) : option (Z * string) :=
  let s1 := skip_space s in
  let '(neg, s2) :=
    match s1 with
    | String "-"%char r => (true, r)
    | String "+"%char r => (false, r)
    | _ => (false, s1)
    end in
  match read_digits 0 false s2 with
  | None => None
  | Some (v, rest) => Some (if neg then - v else v, rest)
  end.

Lemma read_digits_consumes (s : string) :
  forall (acc : Z) (seen : bool) (v : Z) (rest : string),
    read_digits acc seen s = Some (v, rest) ->
    (String.length rest <= String.length s)%nat
    /\ (seen = false -> (String.length rest < String.length s)%nat).
Proof.
  induction s as [|c s IH]; intros acc seen v rest H; simpl in H.
  - destruct seen; inversion H; subst. split; [lia|discriminate].
  - destruct (digit c).
    + apply IH in H. simpl. destruct H as [H _]. split; lia.
    + destruct seen; inversion H; subst. split; [lia|discriminate].
Qed.

Lemma skip_space_shorter (s : string) :
  (String.length (skip_space s) <= String.length s)%nat.
Proof.
  induction s as [|c s IH]; simpl; [lia|].
  destruct (isspace c); simpl; lia.
Qed.

Lemma extract_integral_consumes (s : string) (v : Z) (rest : string) :
  extract_integral s = Some (v, rest) ->
  (String.length rest < String.length s)%nat.
Proof.
  unfold extract_integral. pose proof (skip_space_shorter s) as Hs.
  destruct (skip_space s) as [|c s1] eqn:Hk; [discriminate|].
  assert (Hcase : forall neg s2,
             (String.length s2 <= String.length (String c s1))%nat ->
             match read_digits 0 false s2 with
             | Some (v0, rest0) => Some (if neg : bool then - v0 else v0, rest0)
             | None => None
             end = Some (v, rest) ->
             (String.length rest < String.length s)%nat).
  { intros neg s2 Hl H.
    destruct (read_digits 0 false s2) as [[v0 rest0]|] eqn:Hr; [|discriminate].
    inversion H; subst. apply read_digits_consumes in Hr.
    destruct Hr as [_ Hr]. specialize (Hr eq_refl). lia. }
  destruct c as [b0 b1 b2 b3 b4 b5 b6 b7].
  destruct b0, b1, b2, b3, b4, b5, b6, b7;
    (first [apply (Hcase true)|apply (Hcase false)]; simpl; lia).
Qed.

Definition sample_extraction : Extraction sample :=
  Build_Extraction sample extract_integral extract_integral_consumes.

(** * Properties *)

(** ** The tokenizer *)

Example tokenize_inner_empty_field : tokenize "a,,b" ","%char = ["a"; ""; "b"].
Proof. reflexivity. Qed.

Example tokenize_leading_empty_field : tokenize ",a" ","%char = [""; "a"].
Proof. reflexivity. Qed.

Example tokenize_empty_line : tokenize "" ","%char = [].
Proof. reflexivity. Qed.

Example stoi_examples :
  stoi " -12abc" = Ok (-12)
  /\ stoi "abc" = Throw invalid_argument
  /\ stoi "" = Throw invalid_argument
  /\ stoi "2147483648" = Throw out_of_range.
Proof. repeat split. Qed.

Section Tokenizer.
Variable d : ascii.

Lemma split_all_not_nil (s : string) : split_all d s <> [].
Proof.
  destruct s as [|c s]; simpl; [discriminate|].
  destruct (Ascii.eqb c d); [discriminate|].
  destruct (split_all d s); discriminate.
Qed.

Lemma join_split_all (s : string) : join d (split_all d s) = s.
Proof.
  induction s as [|c s IH]; simpl; [reflexivity|].
  destruct (Ascii.eqb_spec c d) as [->|Hcd].
  - pose proof (split_all_not_nil s) as Hne.
    destruct (split_all d s) as [|t ts]; [contradiction|].
    simpl in *. now rewrite IH.
  - pose proof (split_all_not_nil s) as Hne.
    destruct (split_all d s) as [|t ts]; [contradiction|].
    destruct ts as [|t' ts]; simpl in *; now rewrite <- IH.
Qed.

Lemma split_all_no_delim (s : string) :
  Forall (fun t => occurs d t = false) (split_all d s).
Proof.
  induction s as [|c s IH]; simpl.
  - constructor; [reflexivity|constructor].
  - destruct (Ascii.eqb c d) eqn:Hcd.
    + constructor; [reflexivity|assumption].
    + destruct (split_all d s) as [|t ts]; simpl.
      * constructor; [simpl; now rewrite Hcd|constructor].
      * inversion IH; subst. constructor; [simpl; now rewrite Hcd|assumption].
Qed.

Lemma extract_found (s t r : string) :
  ios.extract d s = (t, Some r) ->
  split_all d s = t :: split_all d r /\ (String.length r < String.length s)%nat.
Proof.
  revert t r. induction s as [|c s IH]; simpl; intros t r H; [discriminate|].
  destruct (Ascii.eqb c d).
  - inversion H; subst. split; [reflexivity|lia].
  - destruct (ios.extract d s) as [t' [r'|]] eqn:He; inversion H; subst.
    destruct (IH _ _ eq_refl) as [Hs Hl]. rewrite Hs. split; [reflexivity|lia].
Qed.

Lemma extract_end (s t : string) :
  ios.extract d s = (t, None) -> split_all d s = [t] /\ t = s.
Proof.
  revert t. induction s as [|c s IH]; simpl; intros t H.
  - inversion H; subst. now split.
  - destruct (Ascii.eqb c d); [discriminate|].
    destruct (ios.extract d s) as [t' [r'|]] eqn:He; inversion H; subst.
    destruct (IH _ eq_refl) as [Hs Ht]. rewrite Hs. split; [reflexivity|now subst].
Qed.

Lemma drop_last_empty_cons (t : string) (l : list string) :
  l <> [] -> drop_last_empty (t :: l) = t :: drop_last_empty l.
Proof.
  intros Hl. unfold drop_last_empty.
  destruct l as [|u l]; [contradiction|].
  change (last (t :: u :: l) "x") with (last (u :: l) "x").
  destruct (last (u :: l) "x"); reflexivity.
Qed.

Lemma getline_loop_spec (fuel : nat) (c s str : string) (o : bool) :
  (String.length s <= fuel)%nat ->
  getline_loop fuel (ios.mk c s o false false) str d
  = Some (drop_last_empty (split_all d s)).
Proof.
  revert s str. induction fuel as [|fuel IH]; intros s str Hlen.
  - destruct s; [|simpl in Hlen; lia]. reflexivity.
  - simpl. unfold ios.getline. simpl.
    destruct (ios.extract d s) as [t [r|]] eqn:He.
    + destruct (extract_found _ _ _ He) as [Hs Hl].
      unfold ios.succeeded. simpl.
      rewrite IH by lia. rewrite Hs.
      now rewrite drop_last_empty_cons by apply split_all_not_nil.
    + destruct (extract_end _ _ He) as [Hs Ht]. rewrite Hs.
      destruct t; [reflexivity|].
      unfold ios.succeeded. simpl.
      destruct fuel; reflexivity.
Qed.

Lemma tokenize_split (line : string) :
  tokenize line d = drop_last_empty (split_all d line).
Proof.
  unfold tokenize, ios.open. now rewrite getline_loop_spec.
Qed.

End Tokenizer.

(** C8 (as amended): the tokenizer yields the strings between delimiter
    occurrences, untrimmed and with no quoting, in order, except that an
    empty final field is dropped: [split_all] cuts the line at every
    delimiter (joining its fields with the delimiter gives the line back and
    no field holds a delimiter), and [tokenize] is [split_all] without its
    last field when that field is empty. *)
Theorem tokenize_drops_empty_last_field (line : string) (d : ascii) :
  tokenize line d = drop_last_empty (split_all d line)
  /\ join d (split_all d line) = line
  /\ Forall (fun t => occurs d t = false) (split_all d line).
Proof.
  split; [apply tokenize_split|].
  split; [apply join_split_all|apply split_all_no_delim].
Qed.

(** C8 as stated fails: a line ending in the delimiter yields no final
    empty field. *)
Lemma tokenize_trailing_delimiter :
  tokenize "a,b," ","%char = ["a"; "b"]
  /\ split_all ","%char "a,b," = ["a"; "b"; ""].
Proof. split; reflexivity. Qed.

(** ** Header resolution *)

Lemma resolve_absent (name : string) (toks : list string) (i idx : Z) :
  ~ In name toks -> resolve name toks i idx = idx.
Proof.
  revert i idx. induction toks as [|tok toks IH]; intros i idx Hn; simpl; [reflexivity|].
  destruct (String.eqb_spec tok name) as [->|Hne].
  - exfalso. apply Hn. now left.
  - apply IH. intros Hin. apply Hn. now right.
Qed.

Lemma resolve_present (name : string) (toks : list string) (i idx : Z) :
  In name toks ->
  exists k, last_occurrence name toks k /\ resolve name toks i idx = i + Z.of_nat k.
Proof.
  revert i idx. induction toks as [|tok toks IH]; intros i idx Hin; [destruct Hin|].
  simpl. destruct (in_dec string_dec name toks) as [Hin'|Hnin].
  - destruct (IH (i + 1) (if String.eqb tok name then i else idx) Hin')
      as (k & [Hk Hlast] & Hres).
    exists (S k). split.
    + split; [exact Hk|].
      intros j Hj. destruct j as [|j]; [lia|]. simpl. apply Hlast. lia.
    + rewrite Hres. lia.
  - rewrite resolve_absent by assumption.
    destruct Hin as [->|Hin]; [|contradiction].
    rewrite String.eqb_refl. exists O. split.
    + split; [reflexivity|].
      intros j Hj. destruct j as [|j]; [lia|]. simpl.
      intros Hnth. apply Hnin. eapply nth_error_In; eassumption.
    + lia.
Qed.

(** An index that started unresolved ends on the last matching token, or
    stays unresolved when no token matches. *)
Lemma resolve_spec (name : string) (toks : list string) :
  let idx := resolve name toks 0 unresolved in
  (0 <= idx /\ last_occurrence name toks (Z.to_nat idx))
  \/ (idx = unresolved /\ ~ In name toks).
Proof.
  simpl. destruct (in_dec string_dec name toks) as [Hin|Hnin].
  - left. destruct (resolve_present name toks 0 unresolved Hin) as (k & Hk & ->).
    split; [lia|]. now replace (Z.to_nat (0 + Z.of_nat k)) with k by lia.
  - right. split; [now apply resolve_absent|assumption].
Qed.

Lemma resolved_nonneg (name : string) (toks : list string) :
  0 <= resolve name toks 0 unresolved ->
  last_occurrence name toks (Z.to_nat (resolve name toks 0 unresolved)).
Proof.
  intros H. destruct (resolve_spec name toks) as [[_ Hl]|[He _]]; [exact Hl|].
  rewrite He in H. unfold unresolved in H. lia.
Qed.

Lemma point_header_loop_resolve (n1 n2 n3 n4 : string) (toks : list string)
    (i a b c e : Z) :
  CSVTemporalPointReader.header_loop n1 n2 n3 n4 toks i (a, b, c, e)
  = (resolve n1 toks i a, resolve n2 toks i b, resolve n3 toks i c, resolve n4 toks i e).
Proof.
  revert i a b c e. induction toks as [|tok toks IH]; intros; simpl; [reflexivity|].
  now rewrite IH.
Qed.

Lemma row_header_loop_resolve (n1 n2 : string) (toks : list string) (i a b : Z) :
  CSVTrajectoryReader.header_loop n1 n2 toks i a b
  = (resolve n1 toks i a, resolve n2 toks i b).
Proof.
  revert i a b. induction toks as [|tok toks IH]; intros; simpl; [reflexivity|].
  now rewrite IH.
Qed.

Lemma point_make_indices (file : string) (d : ascii) (n1 n2 n3 n4 : string)
    (r : CSVTemporalPointReader.t) :
  CSVTemporalPointReader.make file d n1 n2 n3 n4 = Some r ->
  let toks := header_tokens file d in
  CSVTemporalPointReader.id_idx r = resolve n1 toks 0 unresolved
  /\ CSVTemporalPointReader.x_idx r = resolve n2 toks 0 unresolved
  /\ CSVTemporalPointReader.y_idx r = resolve n3 toks 0 unresolved
  /\ CSVTemporalPointReader.time_idx r = resolve n4 toks 0 unresolved
  /\ 0 <= CSVTemporalPointReader.id_idx r
  /\ 0 <= CSVTemporalPointReader.x_idx r
  /\ 0 <= CSVTemporalPointReader.y_idx r.
Proof.
  unfold CSVTemporalPointReader.make, header_tokens.
  destruct (ios.getline (ios.open file) "" LF) as [line ifs1]. simpl.
  rewrite point_header_loop_resolve.
  destruct (resolve n1 _ 0 unresolved <? 0) eqn:H1; [discriminate|].
  destruct (resolve n2 _ 0 unresolved <? 0) eqn:H2; [discriminate|].
  destruct (resolve n3 _ 0 unresolved <? 0) eqn:H3; [discriminate|].
  simpl. intros H. inversion H; subst; simpl.
  apply Z.ltb_ge in H1, H2, H3. repeat split; assumption.
Qed.

Lemma row_make_indices (file : string) (d : ascii) (n1 n2 : string)
    (r : CSVTrajectoryReader.t) :
  CSVTrajectoryReader.make file d n1 n2 = Some r ->
  let toks := header_tokens file d in
  CSVTrajectoryReader.id_idx r = resolve n1 toks 0 unresolved
  /\ CSVTrajectoryReader.geom_idx r = resolve n2 toks 0 unresolved
  /\ 0 <= CSVTrajectoryReader.id_idx r
  /\ 0 <= CSVTrajectoryReader.geom_idx r.
Proof.
  unfold CSVTrajectoryReader.make, header_tokens.
  destruct (ios.getline (ios.open file) "" LF) as [line ifs1]. simpl.
  rewrite row_header_loop_resolve.
  destruct (resolve n1 _ 0 unresolved <? 0) eqn:H1; [discriminate|].
  destruct (resolve n2 _ 0 unresolved <? 0) eqn:H2; [discriminate|].
  simpl. intros H. inversion H; subst; simpl.
  apply Z.ltb_ge in H1, H2. repeat split; assumption.
Qed.

(** C3 (as amended): when a role's column name occurs more than once in the
    header, the role is mapped to the index of the LAST header token equal
    (case-sensitively) to that name, in the point-stream reader and in the
    whole-row reader alike; an optional time column that occurs nowhere
    stays unresolved. *)
Theorem header_last_match_wins (file : string) (d : ascii) :
  let toks := header_tokens file d in
  (forall id_name x_name y_name time_name r,
      CSVTemporalPointReader.make file d id_name x_name y_name time_name = Some r ->
      last_occurrence id_name toks (Z.to_nat (CSVTemporalPointReader.id_idx r))
      /\ last_occurrence x_name toks (Z.to_nat (CSVTemporalPointReader.x_idx r))
      /\ last_occurrence y_name toks (Z.to_nat (CSVTemporalPointReader.y_idx r))
      /\ ((0 <= CSVTemporalPointReader.time_idx r
           /\ last_occurrence time_name toks
                (Z.to_nat (CSVTemporalPointReader.time_idx r)))
          \/ (CSVTemporalPointReader.time_idx r = unresolved
              /\ ~ In time_name toks)))
  /\ (forall id_name geom_name r,
      CSVTrajectoryReader.make file d id_name geom_name = Some r ->
      last_occurrence id_name toks (Z.to_nat (CSVTrajectoryReader.id_idx r))
      /\ last_occurrence geom_name toks (Z.to_nat (CSVTrajectoryReader.geom_idx r))).
Proof.
  simpl. split.
  - intros n1 n2 n3 n4 r Hmk.
    destruct (point_make_indices _ _ _ _ _ _ _ Hmk) as (E1 & E2 & E3 & E4 & P1 & P2 & P3).
    rewrite E1, E2, E3, E4 in *.
    repeat split; try (apply resolved_nonneg; assumption);
      try (apply (proj1 (resolved_nonneg _ _ ltac:(eassumption))));
      try (apply (proj2 (resolved_nonneg _ _ ltac:(eassumption)))).
    apply resolve_spec.
  - intros n1 n2 r Hmk.
    destruct (row_make_indices _ _ _ _ _ Hmk) as (E1 & E2 & P1 & P2).
    rewrite E1, E2 in *.
    split; apply resolved_nonneg; assumption.
Qed.

(** [header_last_match_wins] on the header [id,x,y,id]. *)
Lemma header_last_match_wins_witness :
  exists r,
    CSVTemporalPointReader.make duplicate_header_file ","%char "id" "x" "y" "t" = Some r
    /\ last_occurrence "id" (header_tokens duplicate_header_file ","%char)
         (Z.to_nat (CSVTemporalPointReader.id_idx r)).
Proof.
  eexists. split; [reflexivity|].
  apply (proj1 (header_last_match_wins duplicate_header_file ","%char)
           "id" "x" "y" "t" _ eq_refl).
Defined.

(** C3 as stated fails: with the header [id,x,y,id] the identifier is
    resolved to column 3, while the first token equal to [id] is column 0. *)
Lemma header_first_match_loses :
  option_map CSVTemporalPointReader.id_idx
    (CSVTemporalPointReader.make duplicate_header_file ","%char "id" "x" "y" "t")
  = Some 3
  /\ option_map CSVTrajectoryReader.id_idx
       (CSVTrajectoryReader.make duplicate_header_file ","%char "id" "x")
     = Some 3
  /\ first_occurrence "id" (header_tokens duplicate_header_file ","%char) 0.
Proof.
  split; [reflexivity|]. split; [reflexivity|].
  split; [reflexivity|]. intros j Hj. inversion Hj.
Qed.

(** ** The batch operations *)

Section BatchProperties.
Import ITrajectoryReader.
Context {R T : Type} {I : Interface R T}.

(** A drain that ends normally returns what it had plus [rest], and
    collecting at most [k] more trajectories from the same state returns the
    first [k] of [rest]. *)
Lemma read_next_N_loop_prefix (fuel : nat) :
  forall (r : R) (acc l : list T) (r' : R),
    read_all_loop fuel r acc = Some (Ok l, r') ->
    exists rest, l = acc ++ rest
      /\ forall k, exists r'', read_next_N_loop k r acc = (Ok (acc ++ firstn k rest), r'').
Proof.
  induction fuel as [|fuel IH]; intros r acc l r' H; simpl in H;
    destruct (has_next_feature r) as [more r1] eqn:Hn; destruct more.
  - discriminate.
  - inversion H; subst. exists []. split; [now rewrite app_nil_r|].
    intros [|k]; simpl; rewrite ?Hn, ?app_nil_r; eauto.
  - destruct (read_next_trajectory r1) as [[t|e] r2] eqn:Hr; [|discriminate].
    destruct (IH _ _ _ _ H) as (rest & -> & Hk).
    exists (t :: rest). split; [now rewrite <- app_assoc|].
    intros [|k]; simpl.
    + rewrite app_nil_r. eauto.
    + rewrite Hn, Hr. destruct (Hk k) as [r'' ->].
      rewrite <- app_assoc. eauto.
  - inversion H; subst. exists []. split; [now rewrite app_nil_r|].
    intros [|k]; simpl; rewrite ?Hn, ?app_nil_r; eauto.
Qed.

(** Whatever the reader does, [read_next_N_trajectories] never returns
    more than [N] trajectories. *)
Lemma read_next_N_loop_bound (k : nat) :
  forall (r : R) (acc l : list T) (r' : R),
    read_next_N_loop k r acc = (Ok l, r') ->
    (length l <= length acc + k)%nat.
Proof.
  induction k as [|k IH]; intros r acc l r' H; simpl in H.
  - inversion H; subst. lia.
  - destruct (has_next_feature r) as [more r1]; destruct more.
    + destruct (read_next_trajectory r1) as [[t|e] r2]; [|discriminate].
      apply IH in H. rewrite length_app in H. simpl in H. lia.
    + inversion H; subst. lia.
Qed.

End BatchProperties.

(** C7: for every reader, every state from which the remaining
    trajectories can be drained (say they are [l]) and every [N >= 0],
    [read_next_N_trajectories N] returns normally, with the first [N]
    trajectories of [l]: a sequence of length [min N (length l)], shorter
    than [N] exactly when the source runs out first. *)
Theorem read_next_N_min {R T : Type} {I : ITrajectoryReader.Interface R T}
    (N : Z) (fuel : nat) (r r' : R) (l : list T) :
  0 <= N ->
  ITrajectoryReader.read_all_trajectories fuel r = Some (Ok l, r') ->
  exists out r'',
    ITrajectoryReader.read_next_N_trajectories N r = (Ok out, r'')
    /\ out = firstn (Z.to_nat N) l
    /\ Z.of_nat (length out) = Z.min N (Z.of_nat (length l)).
Proof.
  intros HN H. unfold ITrajectoryReader.read_all_trajectories in H.
  destruct (read_next_N_loop_prefix _ _ _ _ _ H) as (rest & -> & Hk).
  destruct (Hk (Z.to_nat N)) as [r'' Hr]. simpl in *.
  exists (firstn (Z.to_nat N) rest), r''. split; [exact Hr|]. split; [reflexivity|].
  rewrite length_firstn. lia.
Qed.

Example rows_reader_made :
  CSVTrajectoryReader.make rows_file ";"%char "id" "geom" = Some rows_reader.
Proof. reflexivity. Qed.

(** [read_next_N_min] on a file of two rows, asked for one trajectory and
    for five. *)
Lemma read_next_N_min_witness :
  (exists out r'',
      ITrajectoryReader.read_next_N_trajectories (I := CSVTrajectoryReader.reader (E := sample))
        1 rows_reader = (Ok out, r'')
      /\ out = firstn 1 [mkTrajectory 1 [(0, 0); (1, 1)];
                         mkTrajectory 2 [(5, 5); (6, 6); (7, 7)]]
      /\ Z.of_nat (length out) = Z.min 1 2)
  /\ (exists out r'',
      ITrajectoryReader.read_next_N_trajectories (I := CSVTrajectoryReader.reader (E := sample))
        5 rows_reader = (Ok out, r'')
      /\ out = firstn 5 [mkTrajectory 1 [(0, 0); (1, 1)];
                         mkTrajectory 2 [(5, 5); (6, 6); (7, 7)]]
      /\ Z.of_nat (length out) = Z.min 5 2).
Proof.
  split.
  - exact (read_next_N_min (I := CSVTrajectoryReader.reader (E := sample))
             1 5 rows_reader _ _ ltac:(lia) eq_refl).
  - exact (read_next_N_min (I := CSVTrajectoryReader.reader (E := sample))
             5 5 rows_reader _ _ ltac:(lia) eq_refl).
Defined.

(** ** The point-stream assembler *)

Section AssemblerProperties.
Import CSVTemporalPointReader.
Context {E : Externals}.

Lemma assemble_eq (temporal : bool) (fuel : nat) (r : t) (lc : locals) :
  assemble temporal fuel r lc =
  if on_same_trajectory lc then
    let (more, r1) := has_next_feature r in
    if more then
      match fuel with
      | O => None
      | S fuel' =>
          let (line, r2) := next_line r1 (line lc) in
          match field_loop temporal r2 (tokenize line (delim r2)) 0
                  0 double_zero double_zero double_zero with
          | Throw e => Some (Throw e, r2)
          | Ok (id, x, y, timestamp) =>
              let lc' := step_locals temporal r2 lc line id x y timestamp in
              let r3 := if on_same_trajectory lc' then r2 else set_prev_line r2 line in
              assemble temporal fuel' r3 lc'
          end
      end
    else Some (Ok lc, r1)
  else Some (Ok lc, r).
Proof. destruct fuel; reflexivity. Qed.

Lemma has_next_true (r r1 : t) :
  has_next_feature r = (true, r1) ->
  r1 = r /\ ios.good (ifs r) = true
  /\ exists c s, ios.unread (ifs r) = String c s.
Proof.
  unfold has_next_feature, ios.peek. destruct r as [s a b c e dl pl]; simpl.
  destruct (ios.good s) eqn:Hg; [|intros H; inversion H].
  destruct (ios.unread s) as [|ch rest] eqn:Hu; intros H; inversion H.
  unfold set_ifs; simpl. repeat split; eauto.
Qed.

Lemma has_next_false (r r1 : t) :
  has_next_feature r = (false, r1) ->
  schema r1 = schema r /\ prev_line r1 = prev_line r
  /\ ios.content (ifs r1) = ios.content (ifs r)
  /\ ios.unread (ifs r1) = ios.unread (ifs r)
  /\ (ios.good (ifs r) = false \/ ios.unread (ifs r) = EmptyString).
Proof.
  unfold has_next_feature, ios.peek. destruct r as [s a b c e dl pl]; simpl.
  destruct (ios.good s) eqn:Hg.
  - destruct (ios.unread s) as [|ch rest] eqn:Hu; intros H; inversion H; subst.
    simpl. repeat split; auto.
  - intros H; inversion H; subst. simpl. repeat split; auto.
Qed.

Lemma next_line_schema (r r2 : t) (l0 ln : string) :
  next_line r l0 = (ln, r2) -> schema r2 = schema r.
Proof.
  unfold next_line. destruct (prev_line r).
  - destruct (ios.getline (ifs r) l0 LF). intros H; inversion H; reflexivity.
  - intros H; inversion H; reflexivity.
Qed.

Lemma schema_time_stamp (r r' : t) :
  schema r' = schema r -> has_time_stamp r' = has_time_stamp r.
Proof. unfold schema, has_time_stamp. intros H; inversion H. congruence. Qed.

(** *** Timestamps run parallel to the points *)

Lemma step_locals_parallel (temporal : bool) (r : t) (lc : locals) (ln : string)
    (i : Z) (x y ts : double) :
  parallel (temporal && has_time_stamp r) lc ->
  parallel (temporal && has_time_stamp r) (step_locals temporal r lc ln i x y ts).
Proof.
  unfold parallel, step_locals, add_point. simpl.
  destruct ((prev_id lc =? i) || first_observation lc); simpl; [|tauto].
  destruct temporal; simpl; [|tauto].
  destruct (has_time_stamp r); simpl; [|tauto].
  intros H. rewrite !length_app. simpl. lia.
Qed.

Lemma assemble_parallel (temporal : bool) (fuel : nat) :
  forall (r r' : t) (lc out : locals),
    assemble temporal fuel r lc = Some (Ok out, r') ->
    parallel (temporal && has_time_stamp r) lc ->
    parallel (temporal && has_time_stamp r) out /\ schema r' = schema r.
Proof.
  induction fuel as [|fuel IH]; intros r r' lc out H Hp; rewrite assemble_eq in H.
  - destruct (on_same_trajectory lc); [|inversion H; subst; auto].
    destruct (has_next_feature r) as [[|] r1] eqn:Hn; [discriminate|].
    inversion H; subst. split; [assumption|]. now apply has_next_false in Hn.
  - destruct (on_same_trajectory lc); [|inversion H; subst; auto].
    destruct (has_next_feature r) as [[|] r1] eqn:Hn.
    + apply has_next_true in Hn. destruct Hn as (-> & _).
      destruct (next_line r (line lc)) as [ln r2] eqn:Hl.
      pose proof (next_line_schema _ _ _ _ Hl) as Hs.
      destruct (field_loop temporal r2 (tokenize ln (delim r2)) 0 0
                  double_zero double_zero double_zero)
        as [[[[i x] y] ts]|e]; [|discriminate].
      assert (Ht : has_time_stamp
                (if on_same_trajectory (step_locals temporal r2 lc ln i x y ts)
                 then r2 else set_prev_line r2 ln) = has_time_stamp r)
        by (rewrite <- (schema_time_stamp _ _ Hs);
            destruct (on_same_trajectory _); reflexivity).
      assert (Hs3 : schema
                (if on_same_trajectory (step_locals temporal r2 lc ln i x y ts)
                 then r2 else set_prev_line r2 ln) = schema r)
        by (rewrite <- Hs; destruct (on_same_trajectory _); reflexivity).
      apply IH in H.
      * rewrite Ht, Hs3 in H. exact H.
      * rewrite Ht, <- (schema_time_stamp _ _ Hs).
        apply step_locals_parallel.
        now rewrite (schema_time_stamp _ _ Hs).
    + inversion H; subst. split; [assumption|]. now apply has_next_false in Hn.
Qed.

(** *** The loop ends within the fuel it is given *)

Lemma getline_shrinks (s : ios.istream) (l0 ln : string) (s' : ios.istream)
    (c : ascii) (rest : string) :
  ios.good s = true -> ios.unread s = String c rest ->
  ios.getline s l0 LF = (ln, s') ->
  (String.length (ios.unread s') < String.length (ios.unread s))%nat
  /\ ios.content s' = ios.content s
  /\ (ios.unread s = (ln ++ String LF (ios.unread s'))%string
      \/ (ios.unread s = ln /\ ios.unread s' = EmptyString)).
Proof.
  intros Hg Hu. unfold ios.getline. rewrite Hg.
  destruct (ios.extract LF (ios.unread s)) as [tk [rs|]] eqn:He; intros H; inversion H; subst; simpl.
  - destruct (extract_found _ _ _ _ He) as [Hs Hl]. repeat split; [exact Hl|].
    left. rewrite <- (join_split_all LF (ios.unread s)), Hs.
    pose proof (split_all_not_nil LF rs) as Hne.
    simpl. destruct (split_all LF rs) eqn:Hsp; [contradiction|].
    rewrite <- Hsp, join_split_all. reflexivity.
  - destruct (extract_end _ _ _ He) as [_ Ht]. rewrite Hu. simpl.
    repeat split; [lia|]. right. split; [now rewrite <- Hu|reflexivity].
Qed.

Lemma next_line_measure (r r2 : t) (l0 ln : string) :
  fst (has_next_feature r) = true ->
  next_line r l0 = (ln, r2) ->
  prev_line r2 = EmptyString
  /\ (String.length (ios.unread (ifs r2)) + 1
      <= String.length (ios.unread (ifs r)) + pending r)%nat.
Proof.
  intros Hn. destruct (has_next_feature r) as [more r1] eqn:Hn'. simpl in Hn. subst.
  apply has_next_true in Hn'. destruct Hn' as (_ & Hg & c & rest & Hu).
  unfold next_line, pending. destruct (prev_line r) eqn:Hp.
  - destruct (ios.getline (ifs r) l0 LF) as [ln' s'] eqn:Hgl. intros H; inversion H; subst.
    simpl. destruct (getline_shrinks _ _ _ _ _ _ Hg Hu Hgl) as [Hlt _].
    split; [assumption|lia].
  - intros H; inversion H; subst. simpl. split; [reflexivity|lia].
Qed.

Lemma assemble_total (temporal : bool) (fuel : nat) :
  forall (r : t) (lc : locals),
    (on_same_trajectory lc = true ->
     (String.length (ios.unread (ifs r)) + pending r <= fuel)%nat) ->
    exists out, assemble temporal fuel r lc = Some out.
Proof.
  induction fuel as [|fuel IH]; intros r lc Hm; rewrite assemble_eq.
  - destruct (on_same_trajectory lc); [|eauto].
    destruct (has_next_feature r) as [[|] r1] eqn:Hn; [|eauto].
    apply has_next_true in Hn. destruct Hn as (_ & _ & c & rest & Hu).
    specialize (Hm eq_refl). rewrite Hu in Hm. simpl in Hm. lia.
  - destruct (on_same_trajectory lc); [|eauto].
    destruct (has_next_feature r) as [[|] r1] eqn:Hn; [|eauto].
    assert (Hn1 : fst (has_next_feature r) = true) by now rewrite Hn.
    apply has_next_true in Hn. destruct Hn as (-> & _).
    destruct (next_line r (line lc)) as [ln r2] eqn:Hl.
    destruct (next_line_measure _ _ _ _ Hn1 Hl) as [Hp Hlen].
    destruct (field_loop temporal r2 (tokenize ln (delim r2)) 0 0
                double_zero double_zero double_zero)
      as [[[[i x] y] ts]|e]; [|eauto].
    apply IH. intros Hon. rewrite Hon. unfold pending. rewrite Hp.
    specialize (Hm eq_refl). lia.
Qed.

Lemma run_within_fuel (temporal : bool) (r : t) :
  exists out, assemble temporal (enough_fuel r) r initial_locals = Some out
              /\ run temporal r = out.
Proof.
  destruct (assemble_total temporal (enough_fuel r) r initial_locals) as [out Ho].
  - intros _. unfold enough_fuel, pending. destruct (prev_line r); lia.
  - exists out. split; [assumption|]. unfold run. now rewrite Ho.
Qed.

(** *** Without a time column the temporal read is the plain read *)

Lemma has_time_stamp_false (r : t) :
  has_time_stamp r = false -> time_idx r = -1.
Proof.
  unfold has_time_stamp. intros H. apply negb_false_iff in H. now apply Z.eqb_eq.
Qed.

Lemma field_loop_untimed (r : t) (toks : list string) :
  has_time_stamp r = false ->
  forall (index i : Z) (x y ts : double),
    0 <= index ->
    field_loop true r toks index i x y ts = field_loop false r toks index i x y ts.
Proof.
  intros Ht. apply has_time_stamp_false in Ht.
  induction toks as [|tok toks IH]; intros index i x y ts Hi; simpl; [reflexivity|].
  rewrite Ht. replace (index =? -1) with false by (symmetry; apply Z.eqb_neq; lia).
  destruct (if index =? id_idx r then stoi tok else Ok i); [|reflexivity].
  destruct (if index =? x_idx r then stof tok else Ok x); [|reflexivity].
  destruct (if index =? y_idx r then stof tok else Ok y); [|reflexivity].
  apply IH. lia.
Qed.

Lemma step_locals_untimed (r : t) (lc : locals) (ln : string) (i : Z) (x y ts : double) :
  has_time_stamp r = false ->
  step_locals true r lc ln i x y ts = step_locals false r lc ln i x y ts.
Proof.
  intros Ht. unfold step_locals. rewrite Ht.
  now destruct ((prev_id lc =? i) || first_observation lc).
Qed.

Lemma assemble_untimed (fuel : nat) :
  forall (r : t) (lc : locals),
    has_time_stamp r = false ->
    assemble true fuel r lc = assemble false fuel r lc.
Proof.
  induction fuel as [|fuel IH]; intros r lc Ht; rewrite !(assemble_eq _ _ r lc);
    [reflexivity|].
  destruct (on_same_trajectory lc); [|reflexivity].
  destruct (has_next_feature r) as [[|] r1] eqn:Hn; [|reflexivity].
  apply has_next_true in Hn. destruct Hn as (-> & _).
  destruct (next_line r (line lc)) as [ln r2] eqn:Hl.
  pose proof (schema_time_stamp _ _ (next_line_schema _ _ _ _ Hl)) as Hs.
  rewrite Ht in Hs.
  rewrite field_loop_untimed by (assumption || lia).
  destruct (field_loop false r2 (tokenize ln (delim r2)) 0 0 double_zero
              double_zero double_zero) as [[[[i x] y] ts]|e]; [|reflexivity].
  rewrite step_locals_untimed by assumption.
  apply IH. now destruct (on_same_trajectory _).
Qed.

(** *** Reading past the end *)

Lemma point_read_exhausted (r : t) :
  fst (has_next_feature r) = false ->
  read_next_trajectory r
  = (Ok (mkTrajectory (-1) []), snd (has_next_feature r)).
Proof.
  intros H. unfold read_next_trajectory, run, enough_fuel. simpl.
  destruct (has_next_feature r) as [more r1]. simpl in H. subst. reflexivity.
Qed.

(** *** Records with a field that does not parse *)





End AssemblerProperties.

(** ** The whole-row reader *)

Section RowProperties.
Import CSVTrajectoryReader.
Context {E : Externals}.

Lemma read_next_trajectory_eq (r : t) :
  read_next_trajectory r =
  match field_loop (after_line r) (next_fields r) 0 0 [] with
  | Ok (trid, geom) => (Ok (mkTrajectory trid geom), after_line r)
  | Throw e => (Throw e, after_line r)
  end.
Proof.
  unfold read_next_trajectory, after_line, next_fields.
  now destruct (ios.getline (ifs r) "" LF).
Qed.

Lemma row_exhausted_line (r : t) :
  fst (has_next_feature r) = false ->
  fst (ios.getline (ifs r) EmptyString LF) = EmptyString.
Proof.
  unfold has_next_feature, ios.peek, ios.getline.
  destruct (ios.good (ifs r)); [|reflexivity].
  destruct (ios.unread (ifs r)); simpl; [reflexivity|discriminate].
Qed.

Lemma row_read_exhausted (r : t) :
  fst (has_next_feature r) = false ->
  read_next_trajectory r = (Ok (mkTrajectory 0 []), after_line r).
Proof.
  intros H. rewrite read_next_trajectory_eq. unfold next_fields.
  now rewrite (row_exhausted_line r H).
Qed.

Lemma field_from_nil (index idx : Z) : field_from [] index idx = None.
Proof.
  unfold field_from. destruct (idx <? index); [reflexivity|].
  now destruct (Z.to_nat (idx - index)).
Qed.

Lemma field_from_here (tok : string) (toks : list string) (index : Z) :
  field_from (tok :: toks) index index = Some tok.
Proof.
  unfold field_from. rewrite Z.ltb_irrefl, Z.sub_diag. reflexivity.
Qed.

Lemma field_from_next (tok : string) (toks : list string) (index idx : Z) :
  idx <> index ->
  field_from (tok :: toks) index idx = field_from toks (index + 1) idx.
Proof.
  intros Hne. unfold field_from.
  destruct (Z.ltb_spec idx index) as [Hlt|Hge].
  - replace (idx <? index + 1) with true by (symmetry; apply Z.ltb_lt; lia).
    reflexivity.
  - replace (idx <? index + 1) with false by (symmetry; apply Z.ltb_ge; lia).
    replace (Z.to_nat (idx - index)) with (S (Z.to_nat (idx - (index + 1)))) by lia.
    reflexivity.
Qed.

Lemma field_from_passed (toks : list string) (index idx : Z) :
  idx < index -> field_from toks index idx = None.
Proof.
  intros H. unfold field_from.
  now replace (idx <? index) with true by (symmetry; apply Z.ltb_lt; lia).
Qed.

(** When the identifier and the geometry that are present both parse, the
    loop returns them, and the initial values for those that are absent. *)
Lemma field_loop_ok (r : t) (toks : list string) :
  forall (index trid : Z) (geom : LineString double) (a : Z) (g : LineString double),
    match field_from toks index (id_idx r) with
    | Some tok => stoi tok
    | None => Ok trid
    end = Ok a ->
    match field_from toks index (geom_idx r) with
    | Some tok => read_wkt tok
    | None => Ok geom
    end = Ok g ->
    field_loop r toks index trid geom = Ok (a, g).
Proof.
  induction toks as [|tok toks IH]; intros index trid geom a g Ha Hg.
  - rewrite field_from_nil in Ha, Hg. simpl. congruence.
  - simpl.
    destruct (Z.eqb_spec index (id_idx r)) as [Hi|Hi];
      destruct (Z.eqb_spec index (geom_idx r)) as [Hj|Hj].
    + rewrite <- Hi in Ha. rewrite <- Hj in Hg.
      rewrite field_from_here in Ha, Hg. rewrite Ha, Hg.
      apply IH; rewrite field_from_passed by lia; reflexivity.
    + rewrite <- Hi in Ha. rewrite field_from_here in Ha. rewrite Ha.
      rewrite field_from_next in Hg by congruence.
      apply IH; [rewrite field_from_passed by lia; reflexivity|assumption].
    + rewrite <- Hj in Hg. rewrite field_from_here in Hg. rewrite Hg.
      rewrite field_from_next in Ha by congruence.
      apply IH; [assumption|rewrite field_from_passed by lia; reflexivity].
    + rewrite field_from_next in Ha, Hg by congruence.
      now apply IH.
Qed.

Lemma field_at_absent (toks : list string) (idx : Z) :
  Z.of_nat (length toks) <= idx -> field_at toks idx = None.
Proof.
  intros H. unfold field_at, field_from.
  destruct (idx <? 0); [reflexivity|].
  apply nth_error_None. lia.
Qed.




End RowProperties.

(** ** Draining the delimited-text readers ends

    Every successful read takes at least one character off the file, so
    the loop of [read_all_trajectories] ends within [S (length unread)]
    iterations: the trajectories that remain are always defined for these
    readers, unless a read throws. *)

Section DrainEnds.
Context {E : Externals}.

Lemma read_all_loop_eq {R T : Type} {I : ITrajectoryReader.Interface R T}
    (fuel : nat) (r : R) (acc : list T) :
  ITrajectoryReader.read_all_loop fuel r acc =
  let (more, r1) := ITrajectoryReader.has_next_feature r in
  if more then
    match fuel with
    | O => None
    | S fuel' =>
        match ITrajectoryReader.read_next_trajectory r1 with
        | (Ok t, r2) => ITrajectoryReader.read_all_loop fuel' r2 (acc ++ [t])
        | (Throw e, r2) => Some (Throw e, r2)
        end
    end
  else Some (Ok acc, r1).
Proof. destruct fuel; reflexivity. Qed.

Lemma assemble_unread_le (temporal : bool) (fuel : nat) :
  forall (r r' : CSVTemporalPointReader.t) (lc : CSVTemporalPointReader.locals)
         (res : result CSVTemporalPointReader.locals),
    CSVTemporalPointReader.assemble temporal fuel r lc = Some (res, r') ->
    (String.length (ios.unread (CSVTemporalPointReader.ifs r'))
     <= String.length (ios.unread (CSVTemporalPointReader.ifs r)))%nat.
Proof.
  induction fuel as [|fuel IH]; intros r r' lc res H; rewrite assemble_eq in H;
    (destruct (CSVTemporalPointReader.on_same_trajectory lc);
     [|inversion H; subst; lia]);
    destruct (CSVTemporalPointReader.has_next_feature r) as [[|] r1] eqn:Hn;
    try discriminate;
    try (inversion H; subst; apply has_next_false in Hn;
         destruct Hn as (_ & _ & _ & -> & _); lia).
  assert (Hn1 : fst (CSVTemporalPointReader.has_next_feature r) = true)
    by now rewrite Hn.
  apply has_next_true in Hn. destruct Hn as (-> & _).
  destruct (CSVTemporalPointReader.next_line r (CSVTemporalPointReader.line lc))
    as [ln r2] eqn:Hl.
  destruct (next_line_measure _ _ _ _ Hn1 Hl) as [_ Hlen].
  assert (Hp : (pending r <= 1)%nat)
    by (unfold pending; destruct (CSVTemporalPointReader.prev_line r); lia).
  destruct (CSVTemporalPointReader.field_loop temporal r2 _ 0 0 double_zero
              double_zero double_zero) as [[[[i x] y] ts]|e].
  - apply IH in H.
    match type of H with context [if ?b then r2 else _] => destruct b end;
      simpl in H; lia.
  - inversion H; subst. lia.
Qed.

Lemma assemble_consumes_unpended (temporal : bool) (fuel : nat)
    (r r' : CSVTemporalPointReader.t) (lc : CSVTemporalPointReader.locals)
    (res : result CSVTemporalPointReader.locals) :
  CSVTemporalPointReader.on_same_trajectory lc = true ->
  CSVTemporalPointReader.prev_line r = EmptyString ->
  fst (CSVTemporalPointReader.has_next_feature r) = true ->
  CSVTemporalPointReader.assemble temporal fuel r lc = Some (res, r') ->
  (String.length (ios.unread (CSVTemporalPointReader.ifs r'))
   < String.length (ios.unread (CSVTemporalPointReader.ifs r)))%nat.
Proof.
  intros Hon Hp Hn H. rewrite assemble_eq, Hon in H.
  destruct (CSVTemporalPointReader.has_next_feature r) as [more r1] eqn:Hn'.
  simpl in Hn. subst more.
  assert (Hn1 : fst (CSVTemporalPointReader.has_next_feature r) = true)
    by now rewrite Hn'.
  apply has_next_true in Hn'. destruct Hn' as (-> & _).
  destruct fuel as [|fuel]; [discriminate|].
  destruct (CSVTemporalPointReader.next_line r (CSVTemporalPointReader.line lc))
    as [ln r2] eqn:Hl.
  destruct (next_line_measure _ _ _ _ Hn1 Hl) as [_ Hlen].
  unfold pending in Hlen. rewrite Hp in Hlen. simpl in Hlen.
  destruct (CSVTemporalPointReader.field_loop temporal r2 _ 0 0 double_zero
              double_zero double_zero) as [[[[i x] y] ts]|e].
  - apply assemble_unread_le in H.
    match type of H with context [if ?b then r2 else _] => destruct b end;
      simpl in H; lia.
  - inversion H; subst. lia.
Qed.

(** A call that returns a trajectory has read from the file, carried-over
    record or not. *)
Lemma run_consumes (temporal : bool) (r r' : CSVTemporalPointReader.t)
    (out : CSVTemporalPointReader.locals) :
  fst (CSVTemporalPointReader.has_next_feature r) = true ->
  CSVTemporalPointReader.run temporal r = (Ok out, r') ->
  (String.length (ios.unread (CSVTemporalPointReader.ifs r'))
   < String.length (ios.unread (CSVTemporalPointReader.ifs r)))%nat.
Proof.
  intros Hn Hrun.
  destruct (run_within_fuel temporal r) as (o & Ha & Hr).
  rewrite Hrun in Hr. subst o.
  destruct (CSVTemporalPointReader.prev_line r) as [|c pl] eqn:Hp.
  - eapply assemble_consumes_unpended; try eassumption. reflexivity.
  - unfold CSVTemporalPointReader.enough_fuel in Ha.
    rewrite assemble_eq in Ha.
    change (CSVTemporalPointReader.on_same_trajectory
              CSVTemporalPointReader.initial_locals) with true in Ha.
    destruct (CSVTemporalPointReader.has_next_feature r) as [more r1] eqn:Hn'.
    simpl in Hn. subst more.
    assert (Hn1 : fst (CSVTemporalPointReader.has_next_feature
                         (CSVTemporalPointReader.set_prev_line r "")) = true)
      by (unfold CSVTemporalPointReader.has_next_feature in *; simpl;
          destruct (ios.peek (CSVTemporalPointReader.ifs r)) as [[ch|] s1];
          [reflexivity|discriminate]).
    apply has_next_true in Hn'. destruct Hn' as (-> & _).
    unfold CSVTemporalPointReader.next_line in Ha. rewrite Hp in Ha.
    cbv beta iota in Ha.
    destruct (CSVTemporalPointReader.field_loop temporal _ _ 0 0 double_zero
                double_zero double_zero) as [[[[i x] y] ts]|e]; [|discriminate].
    assert (Hon : CSVTemporalPointReader.on_same_trajectory
                    (CSVTemporalPointReader.step_locals temporal
                       (CSVTemporalPointReader.set_prev_line r "")
                       CSVTemporalPointReader.initial_locals (String c pl) i x y ts)
                  = true)
      by (unfold CSVTemporalPointReader.step_locals; simpl;
          now rewrite andb_false_r).
    rewrite Hon in Ha.
    apply assemble_consumes_unpended in Ha; [exact Ha|exact Hon|reflexivity|exact Hn1].
Qed.

Lemma point_drain_ends (fuel : nat) :
  forall (r : CSVTemporalPointReader.t) (acc : list (Trajectory double)),
    (String.length (ios.unread (CSVTemporalPointReader.ifs r)) <= fuel)%nat ->
    exists out,
      ITrajectoryReader.read_all_loop (I := CSVTemporalPointReader.reader) fuel r acc
      = Some out.
Proof.
  induction fuel as [|fuel IH]; intros r acc Hlen; rewrite read_all_loop_eq; simpl;
    destruct (CSVTemporalPointReader.has_next_feature r) as [[|] r1] eqn:Hn;
    try (eexists; reflexivity).
  - apply has_next_true in Hn. destruct Hn as (_ & _ & c & rest & Hu).
    rewrite Hu in Hlen. simpl in Hlen. lia.
  - assert (Hn1 : fst (CSVTemporalPointReader.has_next_feature r) = true)
      by now rewrite Hn.
    apply has_next_true in Hn. destruct Hn as (-> & _).
    unfold CSVTemporalPointReader.read_next_trajectory.
    destruct (CSVTemporalPointReader.run false r) as [[lc|e] r2] eqn:Hrun;
      [|eexists; reflexivity].
    apply IH. pose proof (run_consumes _ _ _ _ Hn1 Hrun). lia.
Qed.

Lemma row_drain_ends (fuel : nat) :
  forall (r : CSVTrajectoryReader.t) (acc : list (Trajectory double)),
    (String.length (ios.unread (CSVTrajectoryReader.ifs r)) <= fuel)%nat ->
    exists out,
      ITrajectoryReader.read_all_loop (I := CSVTrajectoryReader.reader) fuel r acc
      = Some out.
Proof.
  induction fuel as [|fuel IH]; intros r acc Hlen; rewrite read_all_loop_eq; simpl;
    destruct (CSVTrajectoryReader.has_next_feature r) as [[|] r1] eqn:Hn;
    try (eexists; reflexivity);
    unfold CSVTrajectoryReader.has_next_feature, ios.peek in Hn;
    destruct (ios.good (CSVTrajectoryReader.ifs r)) eqn:Hg; try discriminate;
    destruct (ios.unread (CSVTrajectoryReader.ifs r)) as [|c rest] eqn:Hu;
    try discriminate.
  - simpl in Hlen. lia.
  - inversion Hn; subst r1; clear Hn.
    replace (CSVTrajectoryReader.mk (CSVTrajectoryReader.ifs r)
               (CSVTrajectoryReader.id_idx r) (CSVTrajectoryReader.geom_idx r)
               (CSVTrajectoryReader.delim r)) with r by now destruct r.
    rewrite read_next_trajectory_eq.
    destruct (CSVTrajectoryReader.field_loop (after_line r) (next_fields r) 0 0 [])
      as [[trid g]|e]; [|eexists; reflexivity].
    apply IH. unfold after_line. simpl.
    destruct (ios.getline (CSVTrajectoryReader.ifs r) "" LF) as [ln s'] eqn:Hgl.
    destruct (getline_shrinks _ _ _ _ _ _ Hg Hu Hgl) as (Hlt & _).
    simpl in *. rewrite Hu in Hlt. simpl in Hlt. lia.
Qed.

End DrainEnds.

(** ** Reads of the assembler and of the whole-row reader *)

(** C5: the loop of [read_next_temporal_trajectory] ends within its fuel;
    whenever the call returns a trajectory, its timestamps are as many as
    its points if the time column was resolved and none at all if it was
    not; and with an unresolved time column the call does exactly what
    [read_next_trajectory] does (same reader afterwards, same failure if
    any), so the missing column is never a reason to fail. *)
Theorem temporal_timestamps_parallel {E : Externals} (r : CSVTemporalPointReader.t) :
  (exists out,
      CSVTemporalPointReader.assemble true (CSVTemporalPointReader.enough_fuel r) r
        CSVTemporalPointReader.initial_locals = Some out)
  /\ (forall tt r',
        CSVTemporalPointReader.read_next_temporal_trajectory r = (Ok tt, r') ->
        if CSVTemporalPointReader.has_time_stamp r
        then length (timestamps tt) = length (tgeom tt)
        else timestamps tt = [])
  /\ (CSVTemporalPointReader.has_time_stamp r = false ->
      CSVTemporalPointReader.read_next_temporal_trajectory r
      = without_timestamps (CSVTemporalPointReader.read_next_trajectory r)).
Proof.
  split; [|split].
  - destruct (run_within_fuel true r) as (out & Ha & _). eauto.
  - intros tt r' H. unfold CSVTemporalPointReader.read_next_temporal_trajectory in H.
    destruct (run_within_fuel true r) as (out & Ha & Hr). rewrite Hr in H.
    destruct out as [[lc|e] r1]; inversion H; subst; clear H.
    apply assemble_parallel in Ha; [|unfold parallel; simpl;
      destruct (CSVTemporalPointReader.has_time_stamp r); reflexivity].
    destruct Ha as [Hp _]. unfold parallel in Hp. simpl in *. exact Hp.
  - intros Ht.
    unfold CSVTemporalPointReader.read_next_temporal_trajectory,
      CSVTemporalPointReader.read_next_trajectory, CSVTemporalPointReader.run.
    rewrite (assemble_untimed _ _ _ Ht).
    destruct (run_within_fuel false r) as (out & Ha & _). rewrite Ha.
    destruct out as [[lc|e] r1]; simpl; [|reflexivity].
    apply assemble_parallel in Ha; [|reflexivity].
    destruct Ha as [Hp _]. unfold parallel in Hp. simpl in Hp. now rewrite Hp.
Qed.

Example timed_points_reader_made :
  CSVTemporalPointReader.make timed_points_file ","%char "id" "x" "y" "timestamp"
  = Some timed_points_reader.
Proof. reflexivity. Qed.

Example points_reader_made :
  CSVTemporalPointReader.make points_file ","%char "id" "x" "y" "timestamp"
  = Some points_reader.
Proof. reflexivity. Qed.

(** [temporal_timestamps_parallel] on a file with a time column and on
    one without. *)
Lemma temporal_timestamps_parallel_witness :
  CSVTemporalPointReader.read_next_temporal_trajectory (E := sample) timed_points_reader
  = (Ok (mkTemporalTrajectory 1 [(0, 0); (1, 1); (2, 2)] [10; 20; 30]),
     timed_points_reader_done)
  /\ length [10; 20; 30] = length [(0, 0); (1, 1); (2, 2)]
  /\ CSVTemporalPointReader.read_next_temporal_trajectory (E := sample) points_reader
     = without_timestamps
         (CSVTemporalPointReader.read_next_trajectory (E := sample) points_reader).
Proof.
  assert (Hread : CSVTemporalPointReader.read_next_temporal_trajectory (E := sample)
                    timed_points_reader
                  = (Ok (mkTemporalTrajectory 1 [(0, 0); (1, 1); (2, 2)] [10; 20; 30]),
                     timed_points_reader_done))
    by (vm_compute; reflexivity).
  split; [exact Hread|]. split.
  - exact (proj1 (proj2 (temporal_timestamps_parallel (E := sample) timed_points_reader))
             _ _ Hread).
  - apply (proj2 (proj2 (temporal_timestamps_parallel (E := sample) points_reader))).
    vm_compute; reflexivity.
Defined.

(** C6 (as amended): calling [read_next_trajectory] when [has_next_feature]
    is false does not fail.  The point-stream reader returns a trajectory
    with identifier -1 and no point, and is left as [has_next_feature]
    leaves it; the whole-row reader returns a trajectory with identifier 0
    and an empty geometry. *)
Theorem read_past_the_end_returns_empty {E : Externals} :
  (forall r : CSVTemporalPointReader.t,
      fst (CSVTemporalPointReader.has_next_feature r) = false ->
      CSVTemporalPointReader.read_next_trajectory r
      = (Ok (mkTrajectory (-1) []), snd (CSVTemporalPointReader.has_next_feature r)))
  /\ (forall r : CSVTrajectoryReader.t,
      fst (CSVTrajectoryReader.has_next_feature r) = false ->
      CSVTrajectoryReader.read_next_trajectory r
      = (Ok (mkTrajectory 0 []), after_line r)).
Proof.
  split; [apply point_read_exhausted|apply row_read_exhausted].
Qed.

Example drained_readers_made :
  CSVTemporalPointReader.make (text_file ["id,x,y"]) ","%char "id" "x" "y" "timestamp"
  = Some drained_points_reader
  /\ CSVTrajectoryReader.make (text_file ["id;geom"]) ";"%char "id" "geom"
     = Some drained_rows_reader.
Proof. split; reflexivity. Qed.

(** [read_past_the_end_returns_empty] on readers over files that hold a
    header only. *)
Lemma read_past_the_end_returns_empty_witness :
  fst (CSVTemporalPointReader.read_next_trajectory (E := sample) drained_points_reader)
  = Ok (mkTrajectory (-1) [])
  /\ fst (CSVTrajectoryReader.read_next_trajectory (E := sample) drained_rows_reader)
     = Ok (mkTrajectory 0 []).
Proof.
  split.
  - exact (f_equal fst (proj1 (read_past_the_end_returns_empty (E := sample))
                          drained_points_reader eq_refl)).
  - exact (f_equal fst (proj2 (read_past_the_end_returns_empty (E := sample))
                          drained_rows_reader eq_refl)).
Defined.

(** C6 as stated fails: with nothing left to read, both readers return a
    trajectory and no error. *)
Lemma read_past_the_end_is_no_error :
  fst (CSVTemporalPointReader.has_next_feature drained_points_reader) = false
  /\ is_ok (fst (CSVTemporalPointReader.read_next_trajectory (E := sample)
                   drained_points_reader)) = true
  /\ fst (CSVTrajectoryReader.has_next_feature drained_rows_reader) = false
  /\ is_ok (fst (CSVTrajectoryReader.read_next_trajectory (E := sample)
                   drained_rows_reader)) = true.
Proof. repeat split. Qed.


(** C10: when the line the whole-row reader takes has fewer fields than a
    resolved index, [read_next_trajectory] returns normally with the
    missing role at its initial value: identifier 0 and empty geometry when
    both are missing, identifier 0 with the parsed geometry when only the
    identifier is, the parsed identifier with an empty geometry when only
    the geometry is. *)
Theorem short_row_is_defaulted {E : Externals} (r : CSVTrajectoryReader.t) :
  let n := Z.of_nat (length (next_fields r)) in
  (n <= CSVTrajectoryReader.id_idx r -> n <= CSVTrajectoryReader.geom_idx r ->
   CSVTrajectoryReader.read_next_trajectory r
   = (Ok (mkTrajectory 0 []), after_line r))
  /\ (n <= CSVTrajectoryReader.id_idx r ->
      forall tok g,
        field_at (next_fields r) (CSVTrajectoryReader.geom_idx r) = Some tok ->
        read_wkt tok = Ok g ->
        CSVTrajectoryReader.read_next_trajectory r
        = (Ok (mkTrajectory 0 g), after_line r))
  /\ (n <= CSVTrajectoryReader.geom_idx r ->
      forall tok v,
        field_at (next_fields r) (CSVTrajectoryReader.id_idx r) = Some tok ->
        stoi tok = Ok v ->
        CSVTrajectoryReader.read_next_trajectory r
        = (Ok (mkTrajectory v []), after_line r)).
Proof.
  simpl. split; [|split].
  - intros Hi Hg. rewrite read_next_trajectory_eq.
    rewrite (field_loop_ok (after_line r) (next_fields r) 0 0 [] 0 []);
      [reflexivity| |].
    + change (field_from (next_fields r) 0 (CSVTrajectoryReader.id_idx (after_line r)))
        with (field_at (next_fields r) (CSVTrajectoryReader.id_idx r)).
      now rewrite field_at_absent.
    + change (field_from (next_fields r) 0 (CSVTrajectoryReader.geom_idx (after_line r)))
        with (field_at (next_fields r) (CSVTrajectoryReader.geom_idx r)).
      now rewrite field_at_absent.
  - intros Hi tok g Hf Hw. rewrite read_next_trajectory_eq.
    rewrite (field_loop_ok (after_line r) (next_fields r) 0 0 [] 0 g);
      [reflexivity| |].
    + change (field_from (next_fields r) 0 (CSVTrajectoryReader.id_idx (after_line r)))
        with (field_at (next_fields r) (CSVTrajectoryReader.id_idx r)).
      now rewrite field_at_absent.
    + change (field_from (next_fields r) 0 (CSVTrajectoryReader.geom_idx (after_line r)))
        with (field_at (next_fields r) (CSVTrajectoryReader.geom_idx r)).
      now rewrite Hf.
  - intros Hg tok v Hf Hs. rewrite read_next_trajectory_eq.
    rewrite (field_loop_ok (after_line r) (next_fields r) 0 0 [] v []);
      [reflexivity| |].
    + change (field_from (next_fields r) 0 (CSVTrajectoryReader.id_idx (after_line r)))
        with (field_at (next_fields r) (CSVTrajectoryReader.id_idx r)).
      now rewrite Hf.
    + change (field_from (next_fields r) 0 (CSVTrajectoryReader.geom_idx (after_line r)))
        with (field_at (next_fields r) (CSVTrajectoryReader.geom_idx r)).
      now rewrite field_at_absent.
Qed.

(** [short_row_is_defaulted] on an empty line, on a line that stops before
    the identifier column and on a line that stops before the geometry. *)
Lemma short_row_is_defaulted_witness :
  CSVTrajectoryReader.read_next_trajectory (E := sample) (short_rows_reader "" 0 1)
  = (Ok (mkTrajectory 0 []), after_line (short_rows_reader "" 0 1))
  /\ CSVTrajectoryReader.read_next_trajectory (E := sample)
       (short_rows_reader "7;LINESTRING(0 0,1 1)" 2 1)
     = (Ok (mkTrajectory 0 [(0, 0); (1, 1)]),
        after_line (short_rows_reader "7;LINESTRING(0 0,1 1)" 2 1))
  /\ CSVTrajectoryReader.read_next_trajectory (E := sample) (short_rows_reader "7;" 0 1)
     = (Ok (mkTrajectory 7 []), after_line (short_rows_reader "7;" 0 1)).
Proof.
  split; [|split].
  - apply (proj1 (short_row_is_defaulted (E := sample) (short_rows_reader "" 0 1)));
      vm_compute; discriminate.
  - apply (proj1 (proj2 (short_row_is_defaulted (E := sample)
                           (short_rows_reader "7;LINESTRING(0 0,1 1)" 2 1)))
             ltac:(vm_compute; discriminate) "LINESTRING(0 0,1 1)"); reflexivity.
  - apply (proj2 (proj2 (short_row_is_defaulted (E := sample)
                           (short_rows_reader "7;" 0 1)))
             ltac:(vm_compute; discriminate) "7"); reflexivity.
Defined.

(** ** Where the assembler departs from its description *)

(** C1 (the code departs from it): on the rows [1,0,0], [1,1,1], [2,5,5]
    the first read returns the points (0,0),(1,1) tagged 2, the identifier
    of the record that ended the run, because [prev_id] is overwritten
    before the loop is left; [has_next_feature] is then false, a further
    read returns identifier -1 with no point, and a drain yields that one
    trajectory only. *)
Theorem assembler_tags_run_with_next_identifier :
  let first := CSVTemporalPointReader.read_next_trajectory (E := sample) points_reader in
  fst first = Ok (mkTrajectory 2 [(0, 0); (1, 1)])
  /\ fst (CSVTemporalPointReader.has_next_feature (snd first)) = false
  /\ fst (CSVTemporalPointReader.read_next_trajectory (E := sample) (snd first))
     = Ok (mkTrajectory (-1) [])
  /\ option_map fst (drain_points points_reader)
     = Some (Ok [mkTrajectory 2 [(0, 0); (1, 1)]]).
Proof. vm_compute. repeat (split; [reflexivity|]). reflexivity. Qed.

(** C2 (the code departs from it): after the first read of [points_file]
    the pending buffer holds the record [2,5,5], the file is exhausted, and
    [has_next_feature] is false all the same: it only peeks into the
    file. *)
Theorem has_next_ignores_pending_record :
  let r1 := snd (CSVTemporalPointReader.read_next_trajectory (E := sample) points_reader) in
  CSVTemporalPointReader.prev_line r1 = "2,5,5"
  /\ ios.unread (CSVTemporalPointReader.ifs r1) = EmptyString
  /\ fst (CSVTemporalPointReader.has_next_feature r1) = false.
Proof. vm_compute. repeat (split; [reflexivity|]). reflexivity. Qed.

(** C4 (the code departs from it): [reset_cursor] rewinds the file and
    leaves [prev_line] as it is.  After a first drain of [points_file] the
    record [2,5,5] is still pending, and the drain that follows the reset
    starts from it: it returns two trajectories where the first drain
    returned one. *)
Theorem reset_keeps_pending_record :
  exists r1 r2,
    drain_points points_reader = Some (Ok [mkTrajectory 2 [(0, 0); (1, 1)]], r1)
    /\ CSVTemporalPointReader.prev_line (CSVTemporalPointReader.reset_cursor r1) = "2,5,5"
    /\ drain_points (CSVTemporalPointReader.reset_cursor r1)
       = Some (Ok [mkTrajectory 1 [(5, 5)]; mkTrajectory 2 [(0, 0); (1, 1)]], r2).
Proof.
  eexists. eexists. split; [vm_compute; reflexivity|].
  split; vm_compute; reflexivity.
Qed.

(** * Further properties of the readers *)

(** ** The tokenizer reads back what [join] writes *)

Section TokenizerRoundTrip.
Variable d : ascii.

Lemma split_all_token (t : string) :
  occurs d t = false -> split_all d t = [t].
Proof.
  induction t as [|c t IH]; simpl; [reflexivity|].
  destruct (Ascii.eqb c d); simpl; [discriminate|].
  intros H. now rewrite (IH H).
Qed.

Lemma split_all_app (t s : string) :
  occurs d t = false ->
  split_all d (t ++ String d s)%string = t :: split_all d s.
Proof.
  induction t as [|c t IH]; simpl.
  - intros _. now rewrite Ascii.eqb_refl.
  - destruct (Ascii.eqb c d); simpl; [discriminate|].
    intros H. now rewrite (IH H).
Qed.

Lemma split_all_join (toks : list string) :
  toks <> [] ->
  Forall (fun t => occurs d t = false) toks ->
  split_all d (join d toks) = toks.
Proof.
  induction toks as [|t toks IH]; intros Hne Hall; [contradiction|].
  inversion Hall as [|? ? Ht Htoks]; subst.
  destruct toks as [|t' toks].
  - simpl. now apply split_all_token.
  - change (join d (t :: t' :: toks))
      with (t ++ String d (join d (t' :: toks)))%string.
    rewrite split_all_app by assumption.
    now rewrite IH by (assumption || discriminate).
Qed.

Lemma drop_last_empty_keeps (l : list string) :
  last l "x"%string <> EmptyString -> drop_last_empty l = l.
Proof.
  unfold drop_last_empty. intros H.
  destruct (last l "x"%string); [contradiction|reflexivity].
Qed.

End TokenizerRoundTrip.

(** X1: fields that hold no delimiter, the last of which is not empty,
    joined with the delimiter into one line, are the fields the tokenizer
    returns for that line. *)
Theorem tokenize_join (d : ascii) (toks : list string) :
  Forall (fun t => occurs d t = false) toks ->
  last toks "x"%string <> EmptyString ->
  tokenize (join d toks) d = toks.
Proof.
  intros Hall Hlast. destruct toks as [|t toks]; [reflexivity|].
  rewrite tokenize_split, split_all_join by (assumption || discriminate).
  now apply drop_last_empty_keeps.
Qed.

(** [tokenize_join] on the fields [7], the empty field and [abc]. *)
Lemma tokenize_join_witness :
  tokenize (join ";"%char ["7"; ""; "abc"]) ";"%char = ["7"; ""; "abc"].
Proof.
  apply (tokenize_join ";"%char ["7"; ""; "abc"]).
  - repeat constructor.
  - simpl. discriminate.
Defined.

(** ** What the constructors accept *)

Lemma resolve_nonneg_iff (name : string) (toks : list string) :
  0 <= resolve name toks 0 unresolved <-> In name toks.
Proof.
  destruct (resolve_spec name toks) as [[Hpos [Hnth _]]|[He Hnin]].
  - split; [|intros _; exact Hpos].
    intros _. eapply nth_error_In; eassumption.
  - rewrite He. unfold unresolved. split; [lia|contradiction].
Qed.

Lemma resolve_negative_iff (name : string) (toks : list string) :
  (resolve name toks 0 unresolved <? 0) = false <-> In name toks.
Proof.
  rewrite Z.ltb_ge. apply resolve_nonneg_iff.
Qed.

Lemma temporal_row_header_loop_resolve (n1 n2 n3 : string) (toks : list string)
    (i a b c : Z) :
  CSVTemporalTrajectoryReader.header_loop n1 n2 n3 toks i (a, b, c)
  = (resolve n1 toks i a, resolve n2 toks i b, resolve n3 toks i c).
Proof.
  revert i a b c. induction toks as [|tok toks IH]; intros; simpl; [reflexivity|].
  now rewrite IH.
Qed.

(** X2: a constructor returns a reader exactly when every required column
    name occurs among the tokens of the header line, and exits otherwise:
    identifier, x and y for the point-stream reader, identifier and
    geometry for the two whole-row readers.  The time column is never
    required. *)
Theorem constructor_needs_required_columns (file : string) (d : ascii) :
  let toks := header_tokens file d in
  (forall id_name x_name y_name time_name,
      (exists r, CSVTemporalPointReader.make file d id_name x_name y_name time_name
                 = Some r)
      <-> (In id_name toks /\ In x_name toks /\ In y_name toks))
  /\ (forall id_name geom_name,
      (exists r, CSVTrajectoryReader.make file d id_name geom_name = Some r)
      <-> (In id_name toks /\ In geom_name toks))
  /\ (forall id_name geom_name time_name,
      (exists r, CSVTemporalTrajectoryReader.make file d id_name geom_name time_name
                 = Some r)
      <-> (In id_name toks /\ In geom_name toks)).
Proof.
  unfold header_tokens. split; [|split].
  - intros n1 n2 n3 n4. unfold CSVTemporalPointReader.make.
    destruct (ios.getline (ios.open file) "" LF) as [line ifs1]. simpl.
    rewrite point_header_loop_resolve.
    rewrite <- (resolve_negative_iff n1), <- (resolve_negative_iff n2),
      <- (resolve_negative_iff n3).
    destruct (resolve n1 _ 0 unresolved <? 0);
      destruct (resolve n2 _ 0 unresolved <? 0);
      destruct (resolve n3 _ 0 unresolved <? 0); simpl;
      split; try (intros [r H]; discriminate);
      try (intros (H1 & H2 & H3); discriminate); eauto.
  - intros n1 n2. unfold CSVTrajectoryReader.make.
    destruct (ios.getline (ios.open file) "" LF) as [line ifs1]. simpl.
    rewrite row_header_loop_resolve.
    rewrite <- (resolve_negative_iff n1), <- (resolve_negative_iff n2).
    destruct (resolve n1 _ 0 unresolved <? 0);
      destruct (resolve n2 _ 0 unresolved <? 0); simpl;
      split; try (intros [r H]; discriminate);
      try (intros (H1 & H2); discriminate); eauto.
  - intros n1 n2 n3. unfold CSVTemporalTrajectoryReader.make.
    destruct (ios.getline (ios.open file) "" LF) as [line ifs1]. simpl.
    rewrite temporal_row_header_loop_resolve.
    rewrite <- (resolve_negative_iff n1), <- (resolve_negative_iff n2).
    destruct (resolve n1 _ 0 unresolved <? 0);
      destruct (resolve n2 _ 0 unresolved <? 0); simpl;
      split; try (intros [r H]; discriminate);
      try (intros (H1 & H2); discriminate); eauto.
Qed.

(** X3: a reader built by a constructor reports a time stamp exactly when
    the name of the time column occurs in the header line. *)
Theorem has_time_stamp_iff_time_column (file : string) (d : ascii) :
  let toks := header_tokens file d in
  (forall id_name x_name y_name time_name r,
      CSVTemporalPointReader.make file d id_name x_name y_name time_name = Some r ->
      (CSVTemporalPointReader.has_time_stamp r = true <-> In time_name toks))
  /\ (forall id_name geom_name time_name r,
      CSVTemporalTrajectoryReader.make file d id_name geom_name time_name = Some r ->
      (CSVTemporalTrajectoryReader.has_time_stamp r = true <-> In time_name toks)).
Proof.
  unfold header_tokens. split.
  - intros n1 n2 n3 n4 r. unfold CSVTemporalPointReader.make.
    destruct (ios.getline (ios.open file) "" LF) as [line ifs1]. simpl.
    rewrite point_header_loop_resolve.
    destruct (_ || _); [discriminate|]. intros H; inversion H; subst; clear H.
    unfold CSVTemporalPointReader.has_time_stamp. simpl.
    rewrite <- resolve_nonneg_iff, negb_true_iff, Z.eqb_neq.
    destruct (resolve_spec n4 (tokenize line d)) as [[Hpos _]|[He _]];
      simpl in *; [lia|].
    rewrite He. unfold unresolved. lia.
  - intros n1 n2 n3 r. unfold CSVTemporalTrajectoryReader.make.
    destruct (ios.getline (ios.open file) "" LF) as [line ifs1]. simpl.
    rewrite temporal_row_header_loop_resolve.
    destruct (_ || _); [discriminate|]. intros H; inversion H; subst; clear H.
    unfold CSVTemporalTrajectoryReader.has_time_stamp. simpl.
    rewrite <- resolve_nonneg_iff, negb_true_iff, Z.eqb_neq.
    destruct (resolve_spec n3 (tokenize line d)) as [[Hpos _]|[He _]];
      simpl in *; [lia|].
    rewrite He. unfold unresolved. lia.
Qed.

(** [has_time_stamp_iff_time_column] on a header with a time column and on
    one without. *)
Lemma has_time_stamp_iff_time_column_witness :
  (CSVTemporalPointReader.has_time_stamp timed_points_reader = true
   <-> In "timestamp"%string (header_tokens timed_points_file ","%char))
  /\ (CSVTemporalPointReader.has_time_stamp points_reader = true
      <-> In "timestamp"%string (header_tokens points_file ","%char)).
Proof.
  split.
  - exact (proj1 (has_time_stamp_iff_time_column timed_points_file ","%char)
             "id" "x" "y" "timestamp" timed_points_reader eq_refl)%string.
  - exact (proj1 (has_time_stamp_iff_time_column points_file ","%char)
             "id" "x" "y" "timestamp" points_reader eq_refl)%string.
Defined.

(** ** Batches and drains *)

Section BatchComposition.
Import ITrajectoryReader.
Context {R T : Type} {I : Interface R T}.

Lemma read_all_loop_more_fuel (fuel : nat) :
  forall (r : R) (acc : list T) (out : result (list T) * R),
    read_all_loop fuel r acc = Some out ->
    read_all_loop (S fuel) r acc = Some out.
Proof.
  induction fuel as [|fuel IH]; intros r acc out H;
    rewrite read_all_loop_eq in H; rewrite read_all_loop_eq;
    destruct (has_next_feature r) as [[|] r1]; try discriminate; try assumption.
  destruct (read_next_trajectory r1) as [[t|e] r2]; [|assumption].
  now apply IH.
Qed.

(** What a drain returns after what it already holds does not depend on
    what it already holds. *)
Lemma read_all_loop_acc (fuel : nat) :
  forall (r r' : R) (acc l : list T),
    read_all_loop fuel r acc = Some (Ok l, r') ->
    exists rest, l = acc ++ rest
      /\ forall acc', read_all_loop fuel r acc' = Some (Ok (acc' ++ rest), r').
Proof.
  induction fuel as [|fuel IH]; intros r r' acc l H;
    rewrite read_all_loop_eq in H;
    destruct (has_next_feature r) as [[|] r1] eqn:Hn; try discriminate.
  - inversion H; subst. exists []. split; [now rewrite app_nil_r|].
    intros acc'. rewrite read_all_loop_eq, Hn. now rewrite app_nil_r.
  - destruct (read_next_trajectory r1) as [[t|e] r2] eqn:Hr; [|discriminate].
    destruct (IH _ _ _ _ H) as (rest & -> & Hacc).
    exists (t :: rest). split; [now rewrite <- app_assoc|].
    intros acc'. rewrite read_all_loop_eq, Hn, Hr, Hacc.
    now rewrite <- app_assoc.
  - inversion H; subst. exists []. split; [now rewrite app_nil_r|].
    intros acc'. rewrite read_all_loop_eq, Hn. now rewrite app_nil_r.
Qed.

Lemma read_next_N_then_all (fuel : nat) :
  forall (r r' : R) (acc l : list T),
    read_all_loop fuel r acc = Some (Ok l, r') ->
    exists rest, l = acc ++ rest
      /\ forall k, (k <= length rest)%nat ->
           exists r'',
             read_next_N_loop k r acc = (Ok (acc ++ firstn k rest), r'')
             /\ read_all_loop fuel r'' [] = Some (Ok (skipn k rest), r').
Proof.
  induction fuel as [|fuel IH]; intros r r' acc l H;
    pose proof H as Hall; rewrite read_all_loop_eq in H;
    destruct (has_next_feature r) as [[|] r1] eqn:Hn; try discriminate.
  - inversion H; subst. exists []. split; [now rewrite app_nil_r|].
    intros k Hk. assert (k = O) by (simpl in Hk; lia). subst k.
    exists r. simpl. rewrite app_nil_r. split; [reflexivity|].
    rewrite ?read_all_loop_eq. now rewrite Hn.
  - destruct (read_next_trajectory r1) as [[t|e] r2] eqn:Hr; [|discriminate].
    destruct (IH _ _ _ _ H) as (rest & -> & Hk).
    exists (t :: rest). split; [now rewrite <- app_assoc|].
    intros [|k] Hle.
    + exists r. simpl. rewrite app_nil_r. split; [reflexivity|].
      destruct (read_all_loop_acc _ _ _ _ _ Hall) as (rest' & Heq & Hacc).
      rewrite <- app_assoc in Heq. apply app_inv_head in Heq. subst rest'.
      exact (Hacc []).
    + simpl in Hle. destruct (Hk k ltac:(lia)) as (r'' & Hnext & Hrest).
      exists r''. simpl. rewrite Hn, Hr, Hnext, <- app_assoc.
      split; [reflexivity|]. exact (read_all_loop_more_fuel _ _ _ _ Hrest).
  - inversion H; subst. exists []. split; [now rewrite app_nil_r|].
    intros k Hk. assert (k = O) by (simpl in Hk; lia). subst k.
    exists r. simpl. rewrite app_nil_r. split; [reflexivity|].
    rewrite ?read_all_loop_eq. now rewrite Hn.
Qed.

End BatchComposition.

(** X4: [read_next_N_trajectories] never returns more than [N]
    trajectories, and for [N <= 0] it returns none and does not touch the
    reader, not even to ask whether it has more. *)
Theorem read_next_N_at_most_N {R T : Type} {I : ITrajectoryReader.Interface R T}
    (N : Z) (r r' : R) (out : list T) :
  ITrajectoryReader.read_next_N_trajectories N r = (Ok out, r') ->
  Z.of_nat (length out) <= Z.max 0 N
  /\ (N <= 0 -> out = [] /\ r' = r).
Proof.
  unfold ITrajectoryReader.read_next_N_trajectories. intros H. split.
  - apply read_next_N_loop_bound in H. simpl in H. lia.
  - intros HN. replace (Z.to_nat N) with O in H by lia.
    simpl in H. inversion H; subst. now split.
Qed.

(** [read_next_N_at_most_N] on a file of two rows, asked for one
    trajectory. *)
Lemma read_next_N_at_most_N_witness :
  Z.of_nat (length [mkTrajectory 1 [(0, 0); (1, 1)]]) <= Z.max 0 1
  /\ (1 <= 0 ->
      [mkTrajectory 1 [(0, 0); (1, 1)]] = []
      /\ CSVTrajectoryReader.mk
           (ios.mk rows_file (text_file ["2;LINESTRING(5 5,6 6,7 7)"]) true false false)
           0 1 ";"%char
         = rows_reader).
Proof.
  assert (H : ITrajectoryReader.read_next_N_trajectories
                (I := CSVTrajectoryReader.reader (E := sample)) 1 rows_reader
              = (Ok [mkTrajectory 1 [(0, 0); (1, 1)]],
                 CSVTrajectoryReader.mk
                   (ios.mk rows_file (text_file ["2;LINESTRING(5 5,6 6,7 7)"])
                      true false false)
                   0 1 ";"%char))
    by (vm_compute; reflexivity).
  exact (read_next_N_at_most_N (I := CSVTrajectoryReader.reader (E := sample))
           1 rows_reader _ _ H).
Defined.

(** X5: reading a batch and then draining yields what draining alone
    yields.  If a drain of [r] returns [l], then for [0 <= N <= length l]
    the batch read returns the first [N] trajectories of [l] and a drain of
    the reader it leaves returns the others, ending in the same reader. *)
Theorem batch_then_drain {R T : Type} {I : ITrajectoryReader.Interface R T}
    (N : Z) (fuel : nat) (r r' : R) (l : list T) :
  ITrajectoryReader.read_all_trajectories fuel r = Some (Ok l, r') ->
  0 <= N <= Z.of_nat (length l) ->
  exists r'',
    ITrajectoryReader.read_next_N_trajectories N r
    = (Ok (firstn (Z.to_nat N) l), r'')
    /\ ITrajectoryReader.read_all_trajectories fuel r''
       = Some (Ok (skipn (Z.to_nat N) l), r').
Proof.
  unfold ITrajectoryReader.read_all_trajectories,
    ITrajectoryReader.read_next_N_trajectories.
  intros H HN.
  destruct (read_next_N_then_all _ _ _ _ _ H) as (rest & -> & Hk).
  simpl in *. apply Hk. lia.
Qed.

(** [batch_then_drain] on a file of two rows, with a batch of one. *)
Lemma batch_then_drain_witness :
  exists r'',
    ITrajectoryReader.read_next_N_trajectories
      (I := CSVTrajectoryReader.reader (E := sample)) 1 rows_reader
    = (Ok (firstn 1 [mkTrajectory 1 [(0, 0); (1, 1)];
                     mkTrajectory 2 [(5, 5); (6, 6); (7, 7)]]), r'')
    /\ ITrajectoryReader.read_all_trajectories
         (I := CSVTrajectoryReader.reader (E := sample)) 5 r''
       = Some (Ok (skipn 1 [mkTrajectory 1 [(0, 0); (1, 1)];
                            mkTrajectory 2 [(5, 5); (6, 6); (7, 7)]]),
               rows_reader_done).
Proof.
  assert (H : ITrajectoryReader.read_all_trajectories
                (I := CSVTrajectoryReader.reader (E := sample)) 5 rows_reader
              = Some (Ok [mkTrajectory 1 [(0, 0); (1, 1)];
                          mkTrajectory 2 [(5, 5); (6, 6); (7, 7)]],
                      rows_reader_done))
    by (vm_compute; reflexivity).
  apply (batch_then_drain (I := CSVTrajectoryReader.reader (E := sample))
           1 5 rows_reader rows_reader_done _ H).
  simpl. lia.
Defined.

Section TemporalRowDrain.
Context {E : Externals} {X : Extraction E}.

Lemma temporal_row_drain_ends (fuel : nat) :
  forall (r : CSVTemporalTrajectoryReader.t) (acc : list (Trajectory double)),
    (String.length (ios.unread (CSVTemporalTrajectoryReader.ifs r)) <= fuel)%nat ->
    exists out,
      ITrajectoryReader.read_all_loop (I := CSVTemporalTrajectoryReader.reader)
        fuel r acc = Some out.
Proof.
  induction fuel as [|fuel IH]; intros r acc Hlen; rewrite read_all_loop_eq; simpl;
    destruct (CSVTemporalTrajectoryReader.has_next_feature r) as [[|] r1] eqn:Hn;
    try (eexists; reflexivity);
    unfold CSVTemporalTrajectoryReader.has_next_feature, ios.peek in Hn;
    destruct (ios.good (CSVTemporalTrajectoryReader.ifs r)) eqn:Hg;
    try discriminate;
    destruct (ios.unread (CSVTemporalTrajectoryReader.ifs r)) as [|c rest] eqn:Hu;
    try discriminate.
  - simpl in Hlen. lia.
  - inversion Hn; subst r1; clear Hn.
    unfold CSVTemporalTrajectoryReader.read_next_trajectory,
      CSVTemporalTrajectoryReader.set_ifs. simpl.
    destruct (ios.getline (CSVTemporalTrajectoryReader.ifs r) "" LF)
      as [ln s'] eqn:Hgl.
    destruct (getline_shrinks _ _ _ _ _ _ Hg Hu Hgl) as (Hlt & _).
    destruct (CSVTemporalTrajectoryReader.field_loop _ _ 0 0 [])
      as [[trid g]|e]; [|eexists; reflexivity].
    apply IH. simpl in *. rewrite Hu in Hlt. simpl in Hlt. lia.
Qed.

End TemporalRowDrain.

(** X6: [read_all_trajectories] on a delimited-text reader always ends:
    from any state of the point-stream reader or of a whole-row reader, as
    many iterations as the file has unread characters are enough for the
    drain to return, with the trajectories or with the exception of a
    read. *)
Theorem csv_drain_ends {E : Externals} {X : Extraction E} :
  (forall r : CSVTemporalPointReader.t,
      exists out,
        ITrajectoryReader.read_all_trajectories (I := CSVTemporalPointReader.reader)
          (String.length (ios.unread (CSVTemporalPointReader.ifs r))) r = Some out)
  /\ (forall r : CSVTrajectoryReader.t,
      exists out,
        ITrajectoryReader.read_all_trajectories (I := CSVTrajectoryReader.reader)
          (String.length (ios.unread (CSVTrajectoryReader.ifs r))) r = Some out)
  /\ (forall r : CSVTemporalTrajectoryReader.t,
      exists out,
        ITrajectoryReader.read_all_trajectories
          (I := CSVTemporalTrajectoryReader.reader)
          (String.length (ios.unread (CSVTemporalTrajectoryReader.ifs r))) r
        = Some out).
Proof.
  split; [|split]; intros r.
  - now apply point_drain_ends.
  - now apply row_drain_ends.
  - now apply temporal_row_drain_ends.
Qed.

(** ** Rewinding and closing *)

Lemma getline_frame (s : ios.istream) (str : string) (d : ascii) :
  ios.content (snd (ios.getline s str d)) = ios.content s
  /\ ios.is_open (snd (ios.getline s str d)) = ios.is_open s.
Proof.
  unfold ios.getline. destruct (ios.good s); [|now split].
  destruct (ios.extract d (ios.unread s)) as [t [r|]]; now split.
Qed.

Lemma peek_frame (s : ios.istream) :
  ios.content (snd (ios.peek s)) = ios.content s
  /\ ios.is_open (snd (ios.peek s)) = ios.is_open s.
Proof.
  unfold ios.peek. destruct (ios.good s); [|now split].
  destruct (ios.unread s); now split.
Qed.

(** Rewinding an open stream is opening its file again. *)
Lemma rewind_opens (s : ios.istream) :
  ios.is_open s = true ->
  ios.seekg_beg (ios.clear s) = ios.open (ios.content s).
Proof.
  intros Ho. unfold ios.seekg_beg, ios.clear, ios.open. simpl. now rewrite Ho.
Qed.

Lemma shut_close (s : ios.istream) : shut (ios.close s).
Proof.
  unfold shut, ios.close. destruct (ios.is_open s) eqn:Ho; simpl; auto.
Qed.

Lemma shut_peek (s : ios.istream) :
  shut s -> fst (ios.peek s) = None /\ shut (snd (ios.peek s)).
Proof.
  unfold shut, ios.peek, ios.good. intros [Ho Hs].
  destruct (ios.eofbit s); destruct (ios.failbit s) eqn:Hf; simpl; auto.
  destruct Hs as [Hu|Hu]; [|discriminate]. rewrite Hu. simpl. auto.
Qed.

Lemma shut_getline (s : ios.istream) (str : string) (d : ascii) :
  shut s -> shut (snd (ios.getline s str d)).
Proof.
  unfold shut, ios.getline, ios.good. intros [Ho Hs].
  destruct (ios.eofbit s); destruct (ios.failbit s) eqn:Hf; simpl; auto.
  destruct Hs as [Hu|Hu]; [|discriminate]. rewrite Hu. simpl. auto.
Qed.

Lemma shut_rewind (s : ios.istream) :
  shut s -> shut (ios.seekg_beg (ios.clear s)).
Proof.
  unfold shut, ios.seekg_beg, ios.clear. simpl. intros [Ho _].
  rewrite Ho. simpl. auto.
Qed.

Section Rewinding.
Context {E : Externals} {X : Extraction E}.

Lemma row_op_frame (r r' : CSVTrajectoryReader.t) :
  row_op r r' ->
  ios.content (CSVTrajectoryReader.ifs r') = ios.content (CSVTrajectoryReader.ifs r)
  /\ ios.is_open (CSVTrajectoryReader.ifs r') = ios.is_open (CSVTrajectoryReader.ifs r)
  /\ CSVTrajectoryReader.id_idx r' = CSVTrajectoryReader.id_idx r
  /\ CSVTrajectoryReader.geom_idx r' = CSVTrajectoryReader.geom_idx r
  /\ CSVTrajectoryReader.delim r' = CSVTrajectoryReader.delim r.
Proof.
  intros [ | | ].
  - unfold CSVTrajectoryReader.has_next_feature.
    pose proof (peek_frame (CSVTrajectoryReader.ifs r)) as [Hc Ho].
    destruct (ios.peek (CSVTrajectoryReader.ifs r)); simpl in *. auto.
  - rewrite read_next_trajectory_eq. unfold after_line.
    pose proof (getline_frame (CSVTrajectoryReader.ifs r) "" LF) as [Hc Ho].
    destruct (CSVTrajectoryReader.field_loop _ _ 0 0 []) as [[? ?]|?];
      simpl; auto.
  - unfold CSVTrajectoryReader.reset_cursor.
    pose proof (getline_frame
                  (ios.seekg_beg (ios.clear (CSVTrajectoryReader.ifs r))) "" LF)
      as [Hc Ho].
    destruct (ios.getline _ "" LF) as [ln s']; simpl in *.
    rewrite Hc, Ho. unfold ios.seekg_beg, ios.clear; simpl.
    destruct (ios.is_open (CSVTrajectoryReader.ifs r)); simpl; auto.
Qed.

Lemma row_reached_frame (r0 r : CSVTrajectoryReader.t) :
  reached row_op r0 r ->
  ios.content (CSVTrajectoryReader.ifs r) = ios.content (CSVTrajectoryReader.ifs r0)
  /\ ios.is_open (CSVTrajectoryReader.ifs r) = ios.is_open (CSVTrajectoryReader.ifs r0)
  /\ CSVTrajectoryReader.id_idx r = CSVTrajectoryReader.id_idx r0
  /\ CSVTrajectoryReader.geom_idx r = CSVTrajectoryReader.geom_idx r0
  /\ CSVTrajectoryReader.delim r = CSVTrajectoryReader.delim r0.
Proof.
  induction 1 as [|r r' _ IH Hop]; [repeat split|].
  destruct (row_op_frame _ _ Hop) as (H1 & H2 & H3 & H4 & H5).
  destruct IH as (I1 & I2 & I3 & I4 & I5).
  repeat split; congruence.
Qed.

Lemma temporal_row_op_frame (r r' : CSVTemporalTrajectoryReader.t) :
  temporal_row_op r r' ->
  ios.content (CSVTemporalTrajectoryReader.ifs r')
  = ios.content (CSVTemporalTrajectoryReader.ifs r)
  /\ ios.is_open (CSVTemporalTrajectoryReader.ifs r')
     = ios.is_open (CSVTemporalTrajectoryReader.ifs r)
  /\ CSVTemporalTrajectoryReader.set_ifs r' (CSVTemporalTrajectoryReader.ifs r)
     = r.
Proof.
  destruct r as [s i g tm dl]. intros [ | | | ].
  - unfold CSVTemporalTrajectoryReader.has_next_feature. simpl.
    pose proof (peek_frame s) as [Hc Ho].
    destruct (ios.peek s); simpl in *. auto.
  - unfold CSVTemporalTrajectoryReader.read_next_trajectory. simpl.
    pose proof (getline_frame s "" LF) as [Hc Ho].
    destruct (ios.getline s "" LF) as [ln s']; simpl in *.
    destruct (CSVTemporalTrajectoryReader.field_loop _ _ 0 0 []) as [[? ?]|?];
      simpl; auto.
  - unfold CSVTemporalTrajectoryReader.read_next_temporal_trajectory. simpl.
    pose proof (getline_frame s "" LF) as [Hc Ho].
    destruct (ios.getline s "" LF) as [ln s']; simpl in *.
    destruct (CSVTemporalTrajectoryReader.temporal_field_loop _ _ 0 0 [] [])
      as [[[? ?] ?]|?]; simpl; auto.
  - unfold CSVTemporalTrajectoryReader.reset_cursor. simpl.
    pose proof (getline_frame (ios.seekg_beg (ios.clear s)) "" LF) as [Hc Ho].
    destruct (ios.getline _ "" LF) as [ln s']; simpl in *.
    rewrite Hc, Ho. unfold ios.seekg_beg, ios.clear; simpl.
    destruct (ios.is_open s); simpl; auto.
Qed.

Lemma temporal_row_reached_frame (r0 r : CSVTemporalTrajectoryReader.t) :
  reached temporal_row_op r0 r ->
  ios.content (CSVTemporalTrajectoryReader.ifs r)
  = ios.content (CSVTemporalTrajectoryReader.ifs r0)
  /\ ios.is_open (CSVTemporalTrajectoryReader.ifs r)
     = ios.is_open (CSVTemporalTrajectoryReader.ifs r0)
  /\ CSVTemporalTrajectoryReader.set_ifs r (CSVTemporalTrajectoryReader.ifs r0)
     = r0.
Proof.
  induction 1 as [|r r' _ IH Hop]; [now destruct r0|].
  destruct (temporal_row_op_frame _ _ Hop) as (H1 & H2 & H3).
  destruct IH as (I1 & I2 & I3).
  repeat split; try congruence.
  rewrite <- I3. rewrite <- H3 at 2. reflexivity.
Qed.

Lemma point_frame_refl (r : CSVTemporalPointReader.t) : point_frame r r.
Proof. repeat split. Qed.

Lemma point_frame_trans (r1 r2 r3 : CSVTemporalPointReader.t) :
  point_frame r1 r2 -> point_frame r2 r3 -> point_frame r1 r3.
Proof. unfold point_frame. intros (A & B & C) (A' & B' & C'). repeat split; congruence. Qed.

Lemma point_has_next_frame (r : CSVTemporalPointReader.t) :
  point_frame r (snd (CSVTemporalPointReader.has_next_feature r)).
Proof.
  unfold CSVTemporalPointReader.has_next_feature, point_frame.
  pose proof (peek_frame (CSVTemporalPointReader.ifs r)) as [Hc Ho].
  destruct (ios.peek (CSVTemporalPointReader.ifs r)); simpl in *. auto.
Qed.

Lemma point_next_line_frame (r : CSVTemporalPointReader.t) (l0 : string) :
  point_frame r (snd (CSVTemporalPointReader.next_line r l0)).
Proof.
  unfold CSVTemporalPointReader.next_line, point_frame.
  destruct (CSVTemporalPointReader.prev_line r); [|repeat split].
  pose proof (getline_frame (CSVTemporalPointReader.ifs r) l0 LF) as [Hc Ho].
  destruct (ios.getline (CSVTemporalPointReader.ifs r) l0 LF); simpl in *. auto.
Qed.

Lemma assemble_frame (temporal : bool) (fuel : nat) :
  forall (r r' : CSVTemporalPointReader.t) (lc : CSVTemporalPointReader.locals)
         (res : result CSVTemporalPointReader.locals),
    CSVTemporalPointReader.assemble temporal fuel r lc = Some (res, r') ->
    point_frame r r'.
Proof.
  induction fuel as [|fuel IH]; intros r r' lc res H; rewrite assemble_eq in H;
    (destruct (CSVTemporalPointReader.on_same_trajectory lc);
     [|inversion H; subst; apply point_frame_refl]);
    pose proof (point_has_next_frame r) as Hf;
    destruct (CSVTemporalPointReader.has_next_feature r) as [[|] r1];
    simpl in Hf; try discriminate;
    try (inversion H; subst; exact Hf).
  pose proof (point_next_line_frame r1 (CSVTemporalPointReader.line lc)) as Hl.
  destruct (CSVTemporalPointReader.next_line r1 (CSVTemporalPointReader.line lc))
    as [ln r2]. simpl in Hl.
  pose proof (point_frame_trans _ _ _ Hf Hl) as Hfl.
  destruct (CSVTemporalPointReader.field_loop temporal r2 _ 0 0 double_zero
              double_zero double_zero) as [[[[i x] y] ts]|e].
  - apply IH in H. eapply point_frame_trans; [exact Hfl|].
    eapply point_frame_trans; [|exact H].
    match goal with |- point_frame _ (if ?b then _ else _) => destruct b end;
      repeat split.
  - inversion H; subst. exact Hfl.
Qed.

Lemma run_frame (temporal : bool) (r : CSVTemporalPointReader.t) :
  point_frame r (snd (CSVTemporalPointReader.run temporal r)).
Proof.
  destruct (run_within_fuel temporal r) as ([res r'] & Ha & Hr).
  rewrite Hr. simpl. eapply assemble_frame; eassumption.
Qed.

Lemma point_op_frame (r r' : CSVTemporalPointReader.t) :
  point_op r r' -> point_frame r r'.
Proof.
  intros [ | | | ].
  - apply point_has_next_frame.
  - unfold CSVTemporalPointReader.read_next_trajectory.
    pose proof (run_frame false r) as Hf.
    destruct (CSVTemporalPointReader.run false r) as [[lc|e] r1]; exact Hf.
  - unfold CSVTemporalPointReader.read_next_temporal_trajectory.
    pose proof (run_frame true r) as Hf.
    destruct (CSVTemporalPointReader.run true r) as [[lc|e] r1]; exact Hf.
  - unfold CSVTemporalPointReader.reset_cursor, point_frame.
    pose proof (getline_frame
                  (ios.seekg_beg (ios.clear (CSVTemporalPointReader.ifs r))) "" LF)
      as [Hc Ho].
    destruct (ios.getline _ "" LF) as [ln s']; simpl in *.
    rewrite Hc, Ho. unfold ios.seekg_beg, ios.clear; simpl.
    destruct (ios.is_open (CSVTemporalPointReader.ifs r)); simpl; auto.
Qed.

Lemma point_reached_frame (r0 r : CSVTemporalPointReader.t) :
  reached point_op r0 r -> point_frame r0 r.
Proof.
  induction 1 as [|r r' _ IH Hop]; [apply point_frame_refl|].
  eapply point_frame_trans; [exact IH|now apply point_op_frame].
Qed.

End Rewinding.

(** X7: [reset_cursor] of a whole-row reader undoes whatever was read: from
    any state reached from a constructed reader by [has_next_feature],
    reads and resets, it gives back the reader exactly as the constructor
    left it, so a drain after it repeats the first one. *)
Theorem row_reset_restores {E : Externals} {X : Extraction E}
    (file : string) (d : ascii) :
  (forall id_name geom_name (r0 r : CSVTrajectoryReader.t),
      CSVTrajectoryReader.make file d id_name geom_name = Some r0 ->
      reached row_op r0 r ->
      CSVTrajectoryReader.reset_cursor r = r0)
  /\ (forall id_name geom_name time_name (r0 r : CSVTemporalTrajectoryReader.t),
      CSVTemporalTrajectoryReader.make file d id_name geom_name time_name = Some r0 ->
      reached temporal_row_op r0 r ->
      CSVTemporalTrajectoryReader.reset_cursor r = r0).
Proof.
  split.
  - intros n1 n2 r0 r Hmk Hr.
    destruct (row_reached_frame _ _ Hr) as (Hc & Ho & H1 & H2 & H3).
    unfold CSVTrajectoryReader.make in Hmk.
    pose proof (getline_frame (ios.open file) "" LF) as [Gc Go].
    destruct (ios.getline (ios.open file) "" LF) as [line ifs1] eqn:Hg.
    destruct (CSVTrajectoryReader.header_loop _ _ _ 0 unresolved unresolved)
      as [i g].
    destruct (_ || _); [discriminate|]. inversion Hmk; subst r0; clear Hmk.
    simpl in *. unfold CSVTrajectoryReader.reset_cursor.
    rewrite rewind_opens by congruence.
    rewrite Hc, Gc. simpl. rewrite Hg. congruence.
  - intros n1 n2 n3 r0 r Hmk Hr.
    destruct (temporal_row_reached_frame _ _ Hr) as (Hc & Ho & Hs).
    unfold CSVTemporalTrajectoryReader.make in Hmk.
    pose proof (getline_frame (ios.open file) "" LF) as [Gc Go].
    destruct (ios.getline (ios.open file) "" LF) as [line ifs1] eqn:Hg.
    destruct (CSVTemporalTrajectoryReader.header_loop _ _ _ _ 0 _)
      as [[i g] tm].
    destruct (_ || _); [discriminate|]. inversion Hmk; subst r0; clear Hmk.
    simpl in *. unfold CSVTemporalTrajectoryReader.reset_cursor.
    rewrite rewind_opens by congruence.
    rewrite Hc, Gc. simpl. rewrite Hg. exact Hs.
Qed.

(** [row_reset_restores] after one read of [rows_file]. *)
Lemma row_reset_restores_witness :
  CSVTrajectoryReader.reset_cursor
    (snd (CSVTrajectoryReader.read_next_trajectory (E := sample) rows_reader))
  = rows_reader.
Proof.
  apply (proj1 (row_reset_restores (E := sample) (X := sample_extraction)
                  rows_file ";"%char) "id"%string "geom"%string rows_reader).
  - reflexivity.
  - eapply reached_step; [apply reached_start|apply row_read].
Defined.

(** X8: [reset_cursor] of the point-stream reader rewinds the file and
    keeps the carried-over record.  From any state reached from a
    constructed reader by [has_next_feature], reads and resets, it gives
    back the reader as the constructor left it but for [prev_line], which
    is the one of the state it is called in; with nothing carried over it
    gives back the constructed reader itself. *)
Theorem point_reset_keeps_only_pending {E : Externals}
    (file : string) (d : ascii) (id_name x_name y_name time_name : string)
    (r0 r : CSVTemporalPointReader.t) :
  CSVTemporalPointReader.make file d id_name x_name y_name time_name = Some r0 ->
  reached point_op r0 r ->
  CSVTemporalPointReader.reset_cursor r
  = CSVTemporalPointReader.set_prev_line r0 (CSVTemporalPointReader.prev_line r)
  /\ (CSVTemporalPointReader.prev_line r = EmptyString ->
      CSVTemporalPointReader.reset_cursor r = r0).
Proof.
  intros Hmk Hr.
  destruct (point_reached_frame _ _ Hr) as (Hc & Ho & Hs).
  unfold CSVTemporalPointReader.make in Hmk.
  pose proof (getline_frame (ios.open file) "" LF) as [Gc Go].
  destruct (ios.getline (ios.open file) "" LF) as [line ifs1] eqn:Hg.
  destruct (CSVTemporalPointReader.header_loop _ _ _ _ _ 0 _)
    as [[[i x] y] tm].
  destruct (_ || _); [discriminate|]. inversion Hmk; subst r0; clear Hmk.
  unfold schema in Hs. simpl in *. inversion Hs as [[H1 H2 H3 H4 H5]].
  assert (Hreset : CSVTemporalPointReader.reset_cursor r
                   = CSVTemporalPointReader.mk ifs1 i x y tm d
                       (CSVTemporalPointReader.prev_line r)).
  { unfold CSVTemporalPointReader.reset_cursor.
    rewrite rewind_opens by congruence.
    rewrite Hc, Gc. simpl. rewrite Hg.
    unfold CSVTemporalPointReader.set_ifs. congruence. }
  split; [|intros Hp; rewrite Hp in Hreset]; rewrite Hreset;
    unfold CSVTemporalPointReader.set_prev_line; simpl; congruence.
Qed.

(** [point_reset_keeps_only_pending] after the first read of
    [points_file], and before any read. *)
Lemma point_reset_keeps_only_pending_witness :
  CSVTemporalPointReader.reset_cursor points_reader_pending
  = CSVTemporalPointReader.set_prev_line points_reader "2,5,5"
  /\ CSVTemporalPointReader.reset_cursor
       (snd (CSVTemporalPointReader.has_next_feature points_reader))
     = points_reader.
Proof.
  split.
  - assert (Hr : reached (point_op (E := sample)) points_reader points_reader_pending).
    { replace points_reader_pending
        with (snd (CSVTemporalPointReader.read_next_trajectory (E := sample)
                     points_reader)) by (vm_compute; reflexivity).
      eapply reached_step; [apply reached_start|apply point_read]. }
    exact (proj1 (point_reset_keeps_only_pending (E := sample) points_file ","%char
                    "id" "x" "y" "timestamp" points_reader points_reader_pending
                    eq_refl Hr)).
  - apply (proj2 (point_reset_keeps_only_pending (E := sample) points_file ","%char
                    "id" "x" "y" "timestamp" points_reader
                    (snd (CSVTemporalPointReader.has_next_feature points_reader))
                    eq_refl
                    (reached_step _ _ _ _ (reached_start _ _)
                       (point_has_next (E := sample) points_reader)))).
    reflexivity.
Defined.

Section Closing.
Context {E : Externals}.

Lemma run_exhausted (temporal : bool) (r : CSVTemporalPointReader.t) :
  fst (CSVTemporalPointReader.has_next_feature r) = false ->
  CSVTemporalPointReader.run temporal r
  = (Ok CSVTemporalPointReader.initial_locals,
     snd (CSVTemporalPointReader.has_next_feature r)).
Proof.
  intros H. unfold CSVTemporalPointReader.run, CSVTemporalPointReader.enough_fuel.
  simpl.
  destruct (CSVTemporalPointReader.has_next_feature r) as [more r1].
  simpl in H. subst. reflexivity.
Qed.

Lemma shut_point_has_next (r : CSVTemporalPointReader.t) :
  shut (CSVTemporalPointReader.ifs r) ->
  fst (CSVTemporalPointReader.has_next_feature r) = false
  /\ shut (CSVTemporalPointReader.ifs
             (snd (CSVTemporalPointReader.has_next_feature r))).
Proof.
  intros Hs. unfold CSVTemporalPointReader.has_next_feature.
  destruct (shut_peek _ Hs) as [Hp Hs'].
  destruct (ios.peek (CSVTemporalPointReader.ifs r)) as [c s]. simpl in *.
  subst c. now split.
Qed.

Lemma shut_row_has_next (r : CSVTrajectoryReader.t) :
  shut (CSVTrajectoryReader.ifs r) ->
  fst (CSVTrajectoryReader.has_next_feature r) = false
  /\ shut (CSVTrajectoryReader.ifs (snd (CSVTrajectoryReader.has_next_feature r))).
Proof.
  intros Hs. unfold CSVTrajectoryReader.has_next_feature.
  destruct (shut_peek _ Hs) as [Hp Hs'].
  destruct (ios.peek (CSVTrajectoryReader.ifs r)) as [c s]. simpl in *.
  subst c. now split.
Qed.

Lemma shut_row_reached (r r' : CSVTrajectoryReader.t) :
  reached row_op_or_close (CSVTrajectoryReader.close r) r' ->
  shut (CSVTrajectoryReader.ifs r').
Proof.
  induction 1 as [|r1 r2 _ IH Hop]; [apply shut_close|].
  destruct Hop as [[ | | ]| ->].
  - now apply shut_row_has_next.
  - rewrite read_next_trajectory_eq. unfold after_line.
    destruct (CSVTrajectoryReader.field_loop _ _ 0 0 []) as [[? ?]|?]; simpl;
      now apply shut_getline.
  - unfold CSVTrajectoryReader.reset_cursor.
    pose proof (shut_getline _ "" LF (shut_rewind _ IH)) as Hs.
    destruct (ios.getline _ "" LF); exact Hs.
  - apply shut_close.
Qed.

Lemma shut_point_reached (r r' : CSVTemporalPointReader.t) :
  reached point_op_or_close (CSVTemporalPointReader.close r) r' ->
  shut (CSVTemporalPointReader.ifs r').
Proof.
  induction 1 as [|r1 r2 _ IH Hop]; [apply shut_close|].
  destruct (shut_point_has_next _ IH) as [Hn Hs].
  destruct Hop as [[ | | | ]| ->].
  - exact Hs.
  - unfold CSVTemporalPointReader.read_next_trajectory.
    now rewrite (run_exhausted false _ Hn).
  - unfold CSVTemporalPointReader.read_next_temporal_trajectory.
    now rewrite (run_exhausted true _ Hn).
  - unfold CSVTemporalPointReader.reset_cursor.
    pose proof (shut_getline _ "" LF (shut_rewind _ IH)) as Hs'.
    destruct (ios.getline _ "" LF); exact Hs'.
  - apply shut_close.
Qed.

End Closing.

(** X9: [close] is final.  Whatever is called on a reader after it was
    closed, [reset_cursor] included, [has_next_feature] is false and a read
    returns the empty trajectory of an exhausted reader (identifier 0 for
    the whole-row reader, -1 for the point-stream reader) instead of
    failing. *)
Theorem closed_reader_stays_empty {E : Externals} :
  (forall r r' : CSVTrajectoryReader.t,
      reached row_op_or_close (CSVTrajectoryReader.close r) r' ->
      fst (CSVTrajectoryReader.has_next_feature r') = false
      /\ fst (CSVTrajectoryReader.read_next_trajectory r') = Ok (mkTrajectory 0 []))
  /\ (forall r r' : CSVTemporalPointReader.t,
      reached point_op_or_close (CSVTemporalPointReader.close r) r' ->
      fst (CSVTemporalPointReader.has_next_feature r') = false
      /\ fst (CSVTemporalPointReader.read_next_trajectory r')
         = Ok (mkTrajectory (-1) [])
      /\ fst (CSVTemporalPointReader.read_next_temporal_trajectory r')
         = Ok (mkTemporalTrajectory (-1) [] [])).
Proof.
  split; intros r r' Hr.
  - destruct (shut_row_has_next _ (shut_row_reached _ _ Hr)) as [Hn _].
    split; [exact Hn|]. now rewrite (row_read_exhausted _ Hn).
  - destruct (shut_point_has_next _ (shut_point_reached _ _ Hr)) as [Hn _].
    split; [exact Hn|].
    unfold CSVTemporalPointReader.read_next_trajectory,
      CSVTemporalPointReader.read_next_temporal_trajectory.
    rewrite !(run_exhausted _ _ Hn). now split.
Qed.

(** [closed_reader_stays_empty] on [rows_reader] and [points_reader],
    closed before any read and then reset. *)
Lemma closed_reader_stays_empty_witness :
  fst (CSVTrajectoryReader.has_next_feature
         (CSVTrajectoryReader.reset_cursor (CSVTrajectoryReader.close rows_reader)))
  = false
  /\ fst (CSVTemporalPointReader.has_next_feature
            (CSVTemporalPointReader.reset_cursor
               (CSVTemporalPointReader.close points_reader)))
     = false.
Proof.
  split.
  - apply (proj1 (closed_reader_stays_empty (E := sample)) rows_reader).
    eapply reached_step; [apply reached_start|left; apply row_reset].
  - apply (proj2 (closed_reader_stays_empty (E := sample)) points_reader).
    eapply reached_step; [apply reached_start|left; apply point_reset].
Defined.

(** ** Files of well-formed lines *)

Lemma extract_line (l s : string) :
  occurs LF l = false ->
  ios.extract LF (l ++ String LF s)%string = (l, Some s).
Proof.
  induction l as [|c l IH]; simpl; [reflexivity|].
  destruct (Ascii.eqb c LF); simpl; [discriminate|].
  intros H. now rewrite (IH H).
Qed.

Lemma text_file_cons (l : string) (ls : list string) :
  exists c s, text_file (l :: ls) = String c s.
Proof.
  simpl. destruct l as [|c l]; simpl; eauto.
Qed.

Lemma string_length_app (s1 s2 : string) :
  String.length (s1 ++ s2)%string = (String.length s1 + String.length s2)%nat.
Proof. induction s1 as [|c s1 IH]; simpl; [reflexivity|now rewrite IH]. Qed.

Lemma text_file_length (ls : list string) :
  (length ls <= String.length (text_file ls))%nat.
Proof.
  induction ls as [|l ls IH]; simpl; [lia|].
  rewrite string_length_app. simpl. lia.
Qed.

Lemma getline_line (c : string) (o : bool) (str l : string) (ls : list string) :
  occurs LF l = false ->
  ios.getline (ios.mk c (text_file (l :: ls)) o false false) str LF
  = (l, ios.mk c (text_file ls) o false false).
Proof.
  intros H. unfold ios.getline. simpl. now rewrite extract_line.
Qed.

Lemma peek_line (c : string) (o : bool) (l : string) (ls : list string) :
  exists ch,
    ios.peek (ios.mk c (text_file (l :: ls)) o false false)
    = (Some ch, ios.mk c (text_file (l :: ls)) o false false).
Proof.
  destruct (text_file_cons l ls) as (ch & s & Hs). exists ch.
  rewrite Hs. reflexivity.
Qed.

Section RowLines.
Context {E : Externals}.

Lemma row_field_loop_schema (r r' : CSVTrajectoryReader.t) (toks : list string) :
  CSVTrajectoryReader.id_idx r' = CSVTrajectoryReader.id_idx r ->
  CSVTrajectoryReader.geom_idx r' = CSVTrajectoryReader.geom_idx r ->
  forall index trid geom,
    CSVTrajectoryReader.field_loop r' toks index trid geom
    = CSVTrajectoryReader.field_loop r toks index trid geom.
Proof.
  intros H1 H2. induction toks as [|tok toks IH]; intros index trid g; simpl;
    [reflexivity|].
  rewrite H1, H2.
  destruct (if index =? CSVTrajectoryReader.id_idx r then stoi tok else Ok trid);
    [|reflexivity].
  destruct (if index =? CSVTrajectoryReader.geom_idx r then read_wkt tok else Ok g);
    [|reflexivity].
  apply IH.
Qed.

Lemma row_has_next_line (c : string) (o : bool) (i g : Z) (d : ascii)
    (l : string) (ls : list string) :
  let r := CSVTrajectoryReader.mk (ios.mk c (text_file (l :: ls)) o false false) i g d in
  CSVTrajectoryReader.has_next_feature r = (true, r).
Proof.
  intros r. subst r. unfold CSVTrajectoryReader.has_next_feature.
  cbn [CSVTrajectoryReader.ifs CSVTrajectoryReader.id_idx
       CSVTrajectoryReader.geom_idx CSVTrajectoryReader.delim].
  destruct (peek_line c o l ls) as [ch ->]. reflexivity.
Qed.

Lemma row_read_line (c : string) (o : bool) (i g : Z) (d : ascii)
    (l : string) (ls : list string) :
  let r := CSVTrajectoryReader.mk (ios.mk c (text_file (l :: ls)) o false false) i g d in
  let r' := CSVTrajectoryReader.mk (ios.mk c (text_file ls) o false false) i g d in
  occurs LF l = false ->
  CSVTrajectoryReader.read_next_trajectory r
  = match parse_row r l with
    | Ok t => (Ok t, r')
    | Throw e => (Throw e, r')
    end.
Proof.
  intros r r' Hl. subst r r'. unfold CSVTrajectoryReader.read_next_trajectory.
  cbn [CSVTrajectoryReader.ifs CSVTrajectoryReader.id_idx
       CSVTrajectoryReader.geom_idx CSVTrajectoryReader.delim].
  rewrite getline_line by assumption.
  unfold parse_row.
  cbn [CSVTrajectoryReader.ifs CSVTrajectoryReader.id_idx
       CSVTrajectoryReader.geom_idx CSVTrajectoryReader.delim].
  rewrite (row_field_loop_schema
             (CSVTrajectoryReader.mk (ios.mk c (text_file (l :: ls)) o false false)
                i g d)) by reflexivity.
  now destruct (CSVTrajectoryReader.field_loop _ (tokenize l d) 0 0 [])
    as [[trid gm]|e].
Qed.

Lemma parse_row_schema (r r' : CSVTrajectoryReader.t) (line : string) :
  CSVTrajectoryReader.id_idx r' = CSVTrajectoryReader.id_idx r ->
  CSVTrajectoryReader.geom_idx r' = CSVTrajectoryReader.geom_idx r ->
  CSVTrajectoryReader.delim r' = CSVTrajectoryReader.delim r ->
  parse_row r' line = parse_row r line.
Proof.
  intros H1 H2 H3. unfold parse_row.
  now rewrite H3, (row_field_loop_schema r r') by assumption.
Qed.

Lemma row_drain_lines (lines : list string) :
  forall (c : string) (o : bool) (i g : Z) (d : ascii)
         (acc trajs : list (Trajectory double)) (fuel : nat),
    let r := CSVTrajectoryReader.mk (ios.mk c (text_file lines) o false false) i g d in
    Forall (fun l => occurs LF l = false) lines ->
    map (parse_row r) lines = map Ok trajs ->
    (length lines <= fuel)%nat ->
    ITrajectoryReader.read_all_loop (I := CSVTrajectoryReader.reader) fuel r acc
    = Some (Ok (acc ++ trajs), row_at_end r).
Proof.
  induction lines as [|l ls IH]; intros c o i g d acc trajs fuel r Hlf Hparse Hfuel;
    subst r; rewrite read_all_loop_eq;
    cbn [ITrajectoryReader.has_next_feature ITrajectoryReader.read_next_trajectory
         CSVTrajectoryReader.reader].
  - destruct trajs; [|discriminate]. now rewrite app_nil_r.
  - destruct trajs as [|t ts]; [discriminate|].
    cbn [map] in Hparse. inversion Hparse as [[Ht Hts]]; clear Hparse.
    change (l ++ String LF (text_file ls))%string with (text_file (l :: ls)) in *.
    inversion Hlf as [|? ? Hl Hls]; subst.
    rewrite row_has_next_line.
    destruct fuel as [|fuel]; [simpl in Hfuel; lia|].
    rewrite row_read_line by assumption. rewrite Ht.
    rewrite (IH c o i g d _ ts); [now rewrite <- app_assoc|assumption| |simpl in Hfuel; lia].
    rewrite <- Hts. apply map_ext. intros line. now apply parse_row_schema.
Qed.

End RowLines.

(** X10: a drain of the whole-row reader returns one trajectory per line,
    in the order of the file.  When the unread part of the file is lines
    ended by line feeds and every line parses (missing fields defaulted, an
    empty line included), [read_all_trajectories] returns the trajectories
    of the lines and leaves the reader at the end of the file. *)
Theorem row_drain_one_per_line {E : Externals} (r : CSVTrajectoryReader.t)
    (lines : list string) (trajs : list (Trajectory double)) :
  ios.good (CSVTrajectoryReader.ifs r) = true ->
  ios.unread (CSVTrajectoryReader.ifs r) = text_file lines ->
  Forall (fun l => occurs LF l = false) lines ->
  map (parse_row r) lines = map Ok trajs ->
  ITrajectoryReader.read_all_trajectories (I := CSVTrajectoryReader.reader)
    (length lines) r
  = Some (Ok trajs, row_at_end r).
Proof.
  destruct r as [[c u o ef ff] i g d]. unfold ios.good. simpl.
  intros Hg Hu Hlf Hparse. subst u.
  destruct ef; [discriminate|]. destruct ff; [discriminate|].
  unfold ITrajectoryReader.read_all_trajectories.
  now rewrite (row_drain_lines lines c o i g d [] trajs).
Qed.

(** [row_drain_one_per_line] on the two rows of [rows_file]. *)
Lemma row_drain_one_per_line_witness :
  ITrajectoryReader.read_all_trajectories
    (I := CSVTrajectoryReader.reader (E := sample)) 2 rows_reader
  = Some (Ok [mkTrajectory 1 [(0, 0); (1, 1)];
              mkTrajectory 2 [(5, 5); (6, 6); (7, 7)]],
          row_at_end rows_reader).
Proof.
  apply (row_drain_one_per_line (E := sample) rows_reader
           ["1;LINESTRING(0 0,1 1)"; "2;LINESTRING(5 5,6 6,7 7)"]%string).
  - reflexivity.
  - reflexivity.
  - repeat constructor.
  - vm_compute. reflexivity.
Defined.

(** ** The runs the assembler returns *)

Section AssemblerRuns.
Import CSVTemporalPointReader.
Context {E : Externals}.

Lemma point_field_loop_schema (temporal : bool) (r r' : t) (toks : list string) :
  schema r' = schema r ->
  forall (index i : Z) (x y ts : double),
    field_loop temporal r' toks index i x y ts
    = field_loop temporal r toks index i x y ts.
Proof.
  unfold schema. intros H; inversion H as [[H1 H2 H3 H4 H5]].
  induction toks as [|tok toks IH]; intros index i x y ts; simpl; [reflexivity|].
  rewrite H1, H2, H3, H4.
  destruct (if index =? id_idx r then stoi tok else Ok i); [|reflexivity].
  destruct (if index =? x_idx r then stof tok else Ok x); [|reflexivity].
  destruct (if index =? y_idx r then stof tok else Ok y); [|reflexivity].
  destruct (if temporal && (index =? time_idx r) then stof tok else Ok ts);
    [|reflexivity].
  apply IH.
Qed.

Lemma parse_record_schema (temporal : bool) (r r' : t) (ln : string) :
  schema r' = schema r ->
  parse_record temporal r' ln = parse_record temporal r ln.
Proof.
  intros H. unfold parse_record.
  rewrite (point_field_loop_schema temporal r r' _ H).
  unfold schema in H. inversion H. congruence.
Qed.

Lemma has_next_at_lines (r : t) (l : string) (ls : list string) (pl : string) :
  has_next_feature (at_lines r (l :: ls) pl) = (true, at_lines r (l :: ls) pl).
Proof.
  unfold has_next_feature, at_lines.
  cbn [ifs set_ifs set_prev_line id_idx x_idx y_idx time_idx delim prev_line].
  destruct (peek_line (ios.content (ifs r)) (ios.is_open (ifs r)) l ls) as [ch ->].
  reflexivity.
Qed.

Lemma has_next_at_end (r : t) :
  has_next_feature (at_lines r [] EmptyString) = (false, at_end r).
Proof. reflexivity. Qed.

Lemma next_line_at_lines (r : t) (l : string) (ls : list string) (l0 : string) :
  occurs LF l = false ->
  next_line (at_lines r (l :: ls) EmptyString) l0 = (l, at_lines r ls EmptyString).
Proof.
  intros Hl. unfold next_line, at_lines.
  cbn [ifs set_ifs set_prev_line id_idx x_idx y_idx time_idx delim prev_line].
  now rewrite getline_line.
Qed.

Lemma next_line_pending (r : t) (ls : list string) (c : ascii) (s l0 : string) :
  next_line (at_lines r ls (String c s)) l0 = (String c s, at_lines r ls EmptyString).
Proof. reflexivity. Qed.

Lemma assemble_iteration (temporal : bool) (fuel : nat) (r r2 : t) (lc : locals)
    (ln : string) (rec : Z * double * double * double) :
  on_same_trajectory lc = true ->
  has_next_feature r = (true, r) ->
  next_line r (line lc) = (ln, r2) ->
  parse_record temporal r2 ln = Ok rec ->
  assemble temporal (S fuel) r lc
  = let lc' := step_locals temporal r2 lc ln (record_id rec)
                 (fst (record_point rec)) (snd (record_point rec))
                 (record_time rec) in
    assemble temporal fuel
      (if on_same_trajectory lc' then r2 else set_prev_line r2 ln) lc'.
Proof.
  intros Hon Hn Hl Hp. rewrite assemble_eq, Hon, Hn, Hl.
  unfold parse_record in Hp. rewrite Hp.
  now destruct rec as [[[i x] y] ts].
Qed.

(** One more record of the run. *)
Lemma step_locals_same (temporal : bool) (r : t) (lc : locals) (ln : string)
    (rec : Z * double * double * double) :
  on_same_trajectory lc = true ->
  (first_observation lc = true \/ prev_id lc = record_id rec) ->
  let lc' := step_locals temporal r lc ln (record_id rec)
               (fst (record_point rec)) (snd (record_point rec)) (record_time rec) in
  on_same_trajectory lc' = true /\ first_observation lc' = false
  /\ prev_id lc' = record_id rec
  /\ collected (temporal && has_time_stamp r) lc lc' [rec].
Proof.
  intros Hon Hs. destruct rec as [[[i x] y] ts].
  unfold step_locals, collected, add_point. simpl.
  assert (Hsame : (prev_id lc =? i) || first_observation lc = true).
  { destruct Hs as [Hf|Hp]; [rewrite Hf; apply orb_true_r|].
    simpl in Hp. rewrite Hp, Z.eqb_refl. reflexivity. }
  rewrite Hsame. simpl.
  assert (Hb : negb (prev_id lc =? i) && negb (first_observation lc) = false).
  { destruct (prev_id lc =? i); destruct (first_observation lc);
      simpl in *; congruence. }
  rewrite Hb, Hon.
  repeat split.
  destruct (temporal && has_time_stamp r); [reflexivity|now rewrite app_nil_r].
Qed.

(** The record that ends the run. *)
Lemma step_locals_boundary (temporal : bool) (r : t) (lc : locals) (ln : string)
    (rec : Z * double * double * double) :
  first_observation lc = false ->
  prev_id lc <> record_id rec ->
  let lc' := step_locals temporal r lc ln (record_id rec)
               (fst (record_point rec)) (snd (record_point rec)) (record_time rec) in
  on_same_trajectory lc' = false
  /\ prev_id lc' = record_id rec
  /\ collected (temporal && has_time_stamp r) lc lc' [].
Proof.
  intros Hf Hp. destruct rec as [[[i x] y] ts].
  unfold step_locals, collected. simpl in *.
  apply Z.eqb_neq in Hp. rewrite Hp, Hf. simpl.
  repeat split; rewrite ?app_nil_r; try reflexivity.
  destruct (temporal && has_time_stamp r); now rewrite app_nil_r.
Qed.

Lemma collected_trans (timed : bool) (lc1 lc2 lc3 : locals)
    (recs recs' : list (Z * double * double * double)) :
  collected timed lc1 lc2 recs -> collected timed lc2 lc3 recs' ->
  collected timed lc1 lc3 (recs ++ recs').
Proof.
  unfold collected. intros [G1 T1] [G2 T2].
  rewrite G2, G1, T2, T1, !map_app, <- !app_assoc.
  split; [reflexivity|]. now destruct timed.
Qed.

Lemma assemble_run (temporal : bool) (r0 : t) (p : Z) :
  forall (run_lines : list string) (run_recs : list (Z * double * double * double))
         (rest_lines : list string) (fuel : nat) (lc : locals),
    on_same_trajectory lc = true ->
    first_observation lc = false ->
    prev_id lc = p ->
    Forall (fun l => occurs LF l = false) (run_lines ++ rest_lines) ->
    map (parse_record temporal r0) run_lines = map Ok run_recs ->
    Forall (fun rec => record_id rec = p) run_recs ->
    (length (run_lines ++ rest_lines) <= fuel)%nat ->
    (rest_lines = [] ->
     exists lc',
       assemble temporal fuel (at_lines r0 (run_lines ++ rest_lines) EmptyString) lc
       = Some (Ok lc', at_end r0)
       /\ prev_id lc' = p
       /\ collected (temporal && has_time_stamp r0) lc lc' run_recs)
    /\ (forall b rest' brec,
         rest_lines = b :: rest' ->
         parse_record temporal r0 b = Ok brec ->
         record_id brec <> p ->
         exists lc',
           assemble temporal fuel
             (at_lines r0 (run_lines ++ rest_lines) EmptyString) lc
           = Some (Ok lc', at_lines r0 rest' b)
           /\ prev_id lc' = record_id brec
           /\ collected (temporal && has_time_stamp r0) lc lc' run_recs).
Proof.
  induction run_lines as [|l ls IH];
    intros run_recs rest fuel lc Hon Hf Hp Hlf Hparse Hids Hfuel.
  - destruct run_recs; [|discriminate]. cbn [app] in *. split.
    + intros ->. exists lc. rewrite assemble_eq, Hon, has_next_at_end.
      split; [reflexivity|]. split; [assumption|].
      unfold collected. cbn [map]. rewrite app_nil_r.
      split; [reflexivity|].
      destruct (temporal && has_time_stamp r0); now rewrite app_nil_r.
    + intros b rest' brec -> Hb Hq.
      destruct fuel as [|fuel]; [simpl in Hfuel; lia|].
      pose proof (Forall_inv Hlf) as Hlb. cbv beta in Hlb.
      rewrite (assemble_iteration temporal fuel _ (at_lines r0 rest' EmptyString)
                 lc b brec Hon (has_next_at_lines _ _ _ _)
                 (next_line_at_lines _ _ _ _ Hlb));
        [|rewrite <- Hb; now apply parse_record_schema].
      destruct (step_locals_boundary temporal (at_lines r0 rest' EmptyString)
                  lc b brec Hf ltac:(congruence)) as (Hon' & Hid & Hcol).
      cbv zeta. rewrite Hon', assemble_eq, Hon'.
      eexists. split; [reflexivity|]. split; [exact Hid|exact Hcol].
  - destruct run_recs as [|rec recs]; [discriminate|].
    cbn [map] in Hparse. injection Hparse as Hrec Hrecs.
    pose proof (Forall_inv Hids) as Hid. cbv beta in Hid.
    pose proof (Forall_inv_tail Hids) as Hids'.
    cbn [app] in *.
    pose proof (Forall_inv Hlf) as Hll. cbv beta in Hll.
    pose proof (Forall_inv_tail Hlf) as Hlr.
    destruct fuel as [|fuel]; [simpl in Hfuel; lia|].
    assert (Hit := assemble_iteration temporal fuel _
                     (at_lines r0 (ls ++ rest) EmptyString) lc l rec Hon
                     (has_next_at_lines _ _ _ _)
                     (next_line_at_lines _ _ _ _ Hll)).
    rewrite Hit by (rewrite <- Hrec; now apply parse_record_schema).
    clear Hit.
    destruct (step_locals_same temporal (at_lines r0 (ls ++ rest) EmptyString)
                lc l rec Hon (or_intror (eq_trans Hp (eq_sym Hid))))
      as (Hon' & Hf' & Hid' & Hcol).
    cbv zeta. rewrite Hon'.
    destruct (IH recs rest fuel _ Hon' Hf' (eq_trans Hid' Hid) Hlr Hrecs Hids'
                ltac:(simpl in Hfuel; lia)) as [I1 I2].
    split.
    + intros Hr. destruct (I1 Hr) as (lc'' & Ha & Hi & Hc).
      exists lc''. split; [exact Ha|]. split; [exact Hi|].
      exact (collected_trans _ _ _ _ [rec] recs Hcol Hc).
    + intros b rest' brec Hr Hb Hq.
      destruct (I2 b rest' brec Hr Hb Hq) as (lc'' & Ha & Hi & Hc).
      exists lc''. split; [exact Ha|]. split; [exact Hi|].
      exact (collected_trans _ _ _ _ [rec] recs Hcol Hc).
Qed.

Lemma reader_normal_form (r : t) (file_lines : list string) :
  ios.good (ifs r) = true ->
  ios.unread (ifs r) = text_file file_lines ->
  at_lines r file_lines (prev_line r) = r.
Proof.
  destruct r as [[c u o ef ff] i x y tm d pl]. unfold ios.good, at_lines. simpl.
  intros Hg Hu. subst u. destruct ef; [discriminate|]. destruct ff; [discriminate|].
  reflexivity.
Qed.

(** The first iteration of a call takes the first line ahead, carried over
    or not, and leaves the file at the lines that follow it. *)
Lemma first_line_taken (r0 : t) (f : string) (fs : list string) (pl : string)
    (l1 : string) (rest : list string) :
  Forall (fun l => occurs LF l = false) (f :: fs) ->
  lines_ahead (at_lines r0 (f :: fs) pl) (f :: fs) = l1 :: rest ->
  next_line (at_lines r0 (f :: fs) pl) EmptyString
  = (l1, at_lines r0 rest EmptyString)
  /\ Forall (fun l => occurs LF l = false) rest
  /\ (length rest <= String.length (text_file (f :: fs)))%nat.
Proof.
  intros Hlf Ha. pose proof (text_file_length (f :: fs)) as Hlen.
  unfold lines_ahead in Ha. cbn [at_lines set_prev_line prev_line] in Ha.
  destruct pl as [|c pl].
  - injection Ha as -> ->.
    split; [apply next_line_at_lines; exact (Forall_inv Hlf)|].
    split; [exact (Forall_inv_tail Hlf)|]. simpl length in Hlen. lia.
  - injection Ha as <- <-.
    split; [apply next_line_pending|]. split; [exact Hlf|exact Hlen].
Qed.

Lemma run_at_lines (temporal : bool) (r0 : t) (file_lines : list string)
    (pl : string) (run_lines rest_lines : list string)
    (run_recs : list (Z * double * double * double)) (p : Z) :
  file_lines <> [] ->
  Forall (fun l => occurs LF l = false) file_lines ->
  lines_ahead (at_lines r0 file_lines pl) file_lines = run_lines ++ rest_lines ->
  run_lines <> [] ->
  map (parse_record temporal r0) run_lines = map Ok run_recs ->
  Forall (fun rec => record_id rec = p) run_recs ->
  (rest_lines = [] ->
   exists lc',
     run temporal (at_lines r0 file_lines pl) = (Ok lc', at_end r0)
     /\ prev_id lc' = p
     /\ collected (temporal && has_time_stamp r0) initial_locals lc' run_recs)
  /\ (forall b rest' brec,
       rest_lines = b :: rest' ->
       parse_record temporal r0 b = Ok brec ->
       record_id brec <> p ->
       exists lc',
         run temporal (at_lines r0 file_lines pl) = (Ok lc', at_lines r0 rest' b)
         /\ prev_id lc' = record_id brec
         /\ collected (temporal && has_time_stamp r0) initial_locals lc' run_recs).
Proof.
  intros Hne Hlf Ha Hrun Hparse Hids.
  destruct file_lines as [|f fs]; [contradiction|].
  destruct run_lines as [|l1 ls]; [contradiction|].
  destruct run_recs as [|rec recs]; [discriminate|].
  cbn [map] in Hparse. injection Hparse as Hrec Hrecs.
  pose proof (Forall_inv Hids) as Hid. cbv beta in Hid.
  pose proof (Forall_inv_tail Hids) as Hids'.
  cbn [app] in Ha.
  destruct (first_line_taken r0 f fs pl l1 (ls ++ rest_lines) Hlf Ha)
    as (Hnext & Hlf' & Hlen).
  unfold run.
  change (enough_fuel (at_lines r0 (f :: fs) pl))
    with (S (String.length (text_file (f :: fs)))).
  assert (Hit := assemble_iteration temporal (String.length (text_file (f :: fs)))
                   (at_lines r0 (f :: fs) pl)
                   (at_lines r0 (ls ++ rest_lines) EmptyString)
                   initial_locals l1 rec eq_refl
                   (has_next_at_lines _ _ _ _) Hnext).
  rewrite Hit by (rewrite <- Hrec; now apply parse_record_schema).
  clear Hit.
  destruct (step_locals_same temporal (at_lines r0 (ls ++ rest_lines) EmptyString)
              initial_locals l1 rec eq_refl (or_introl eq_refl))
    as (Hon' & Hf' & Hid' & Hcol).
  cbv zeta. rewrite Hon'.
  destruct (assemble_run temporal r0 p ls recs rest_lines
              (String.length (text_file (f :: fs))) _ Hon' Hf'
              (eq_trans Hid' Hid) Hlf' Hrecs Hids' Hlen) as [I1 I2].
  split.
  - intros Hr. destruct (I1 Hr) as (lc'' & Hasm & Hi & Hc).
    exists lc''. rewrite Hasm. split; [reflexivity|]. split; [exact Hi|].
    exact (collected_trans _ _ _ _ [rec] recs Hcol Hc).
  - intros b rest' brec Hr Hb Hq.
    destruct (I2 b rest' brec Hr Hb Hq) as (lc'' & Hasm & Hi & Hc).
    exists lc''. rewrite Hasm. split; [reflexivity|]. split; [exact Hi|].
    exact (collected_trans _ _ _ _ [rec] recs Hcol Hc).
Qed.

Lemma run_first_run (temporal : bool) (r : t) (file_lines : list string)
    (run_lines rest_lines : list string)
    (run_recs : list (Z * double * double * double)) (p : Z) :
  ios.good (ifs r) = true ->
  ios.unread (ifs r) = text_file file_lines ->
  file_lines <> [] ->
  Forall (fun l => occurs LF l = false) file_lines ->
  lines_ahead r file_lines = run_lines ++ rest_lines ->
  run_lines <> [] ->
  map (parse_record temporal r) run_lines = map Ok run_recs ->
  Forall (fun rec => record_id rec = p) run_recs ->
  (rest_lines = [] ->
   exists lc',
     run temporal r = (Ok lc', at_end r)
     /\ prev_id lc' = p
     /\ collected (temporal && has_time_stamp r) initial_locals lc' run_recs)
  /\ (forall b rest' brec,
       rest_lines = b :: rest' ->
       parse_record temporal r b = Ok brec ->
       record_id brec <> p ->
       exists lc',
         run temporal r = (Ok lc', at_lines r rest' b)
         /\ prev_id lc' = record_id brec
         /\ collected (temporal && has_time_stamp r) initial_locals lc' run_recs).
Proof.
  intros Hg Hu Hne Hlf Ha Hrun Hparse Hids.
  pose proof (reader_normal_form r file_lines Hg Hu) as Hnf.
  rewrite <- Hnf in Ha.
  pose proof (run_at_lines temporal r file_lines (prev_line r) run_lines rest_lines
                run_recs p Hne Hlf Ha Hrun Hparse Hids) as H.
  now rewrite Hnf in H.
Qed.

(** *** A record of the run that does not parse *)







(** With no line left in the file a call returns at once, whatever is
    carried over. *)
Lemma run_no_line (temporal : bool) (r : t) :
  ios.good (ifs r) = true ->
  ios.unread (ifs r) = EmptyString ->
  run temporal r = (Ok initial_locals, set_prev_line (at_end r) (prev_line r)).
Proof.
  destruct r as [[c u o ef ff] i x y tm d pl]. unfold ios.good. simpl.
  intros Hg Hu. subst u. destruct ef; [discriminate|]. destruct ff; [discriminate|].
  reflexivity.
Qed.

End AssemblerRuns.





(** X11: what [read_next_trajectory] returns on well-formed input.  Let
    the stream be good, the unread part of the file be lines ended by line
    feeds, and the lines ahead of the reader (the carried-over record, if
    any, then the lines of the file) start with a run of records that all
    have the identifier [p].  If the file has no unread line, the call
    returns the empty trajectory with identifier -1, and a carried-over
    record stays where it is.  If the file has an unread line and the run
    goes to the end of the file, the call returns the points of the run in
    input order, tagged [p], and leaves the reader at the end of the file.
    If the file has an unread line and a record with another identifier
    follows the run, the call returns the points of the run tagged with
    the identifier of that record, and leaves the reader after that record,
    which it carries over. *)
Theorem assembler_returns_first_run {E : Externals} (r : CSVTemporalPointReader.t)
    (file_lines run_lines rest_lines : list string)
    (run_recs : list (Z * double * double * double)) (p : Z) :
  ios.good (CSVTemporalPointReader.ifs r) = true ->
  ios.unread (CSVTemporalPointReader.ifs r) = text_file file_lines ->
  Forall (fun l => occurs LF l = false) file_lines ->
  lines_ahead r file_lines = run_lines ++ rest_lines ->
  run_lines <> [] ->
  map (parse_record false r) run_lines = map Ok run_recs ->
  Forall (fun rec => record_id rec = p) run_recs ->
  (file_lines = [] ->
   CSVTemporalPointReader.read_next_trajectory r
   = (Ok (mkTrajectory (-1) []),
      CSVTemporalPointReader.set_prev_line (at_end r)
        (CSVTemporalPointReader.prev_line r)))
  /\ (file_lines <> [] -> rest_lines = [] ->
      CSVTemporalPointReader.read_next_trajectory r
      = (Ok (mkTrajectory p (map record_point run_recs)), at_end r))
  /\ (file_lines <> [] ->
      forall b rest' brec,
        rest_lines = b :: rest' ->
        parse_record false r b = Ok brec ->
        record_id brec <> p ->
        CSVTemporalPointReader.read_next_trajectory r
        = (Ok (mkTrajectory (record_id brec) (map record_point run_recs)),
           at_lines r rest' b)).
Proof.
  intros Hg Hu Hlf Ha Hrun Hparse Hids.
  unfold CSVTemporalPointReader.read_next_trajectory. split; [|split].
  - intros ->. now rewrite (run_no_line false r Hg Hu).
  - intros Hne Hr.
    destruct (proj1 (run_first_run false r file_lines run_lines rest_lines run_recs p
                       Hg Hu Hne Hlf Ha Hrun Hparse Hids) Hr)
      as (lc & -> & Hi & Hgeom & _).
    now rewrite Hi, Hgeom.
  - intros Hne b rest' brec Hr Hb Hq.
    destruct (proj2 (run_first_run false r file_lines run_lines rest_lines run_recs p
                       Hg Hu Hne Hlf Ha Hrun Hparse Hids) b rest' brec Hr Hb Hq)
      as (lc & -> & Hi & Hgeom & _).
    now rewrite Hi, Hgeom.
Qed.

(** X12: what [read_next_temporal_trajectory] returns on well-formed input,
    under the conditions of the plain read.  If the file has no unread
    line, it returns the empty trajectory with identifier -1 and no
    timestamp, and a carried-over record stays where it is.  If the file
    has an unread line, it returns the points of the first run in input
    order, with the timestamp of each when the reader has a time column and
    with no timestamp when it has none; the tag and the reader it leaves
    are as for the plain read. *)
Theorem assembler_returns_first_run_times {E : Externals}
    (r : CSVTemporalPointReader.t)
    (file_lines run_lines rest_lines : list string)
    (run_recs : list (Z * double * double * double)) (p : Z) :
  ios.good (CSVTemporalPointReader.ifs r) = true ->
  ios.unread (CSVTemporalPointReader.ifs r) = text_file file_lines ->
  Forall (fun l => occurs LF l = false) file_lines ->
  lines_ahead r file_lines = run_lines ++ rest_lines ->
  run_lines <> [] ->
  map (parse_record true r) run_lines = map Ok run_recs ->
  Forall (fun rec => record_id rec = p) run_recs ->
  let times :=
    if CSVTemporalPointReader.has_time_stamp r
    then map record_time run_recs else [] in
  (file_lines = [] ->
   CSVTemporalPointReader.read_next_temporal_trajectory r
   = (Ok (mkTemporalTrajectory (-1) [] []),
      CSVTemporalPointReader.set_prev_line (at_end r)
        (CSVTemporalPointReader.prev_line r)))
  /\ (file_lines <> [] -> rest_lines = [] ->
      CSVTemporalPointReader.read_next_temporal_trajectory r
      = (Ok (mkTemporalTrajectory p (map record_point run_recs) times), at_end r))
  /\ (file_lines <> [] ->
      forall b rest' brec,
        rest_lines = b :: rest' ->
        parse_record true r b = Ok brec ->
        record_id brec <> p ->
        CSVTemporalPointReader.read_next_temporal_trajectory r
        = (Ok (mkTemporalTrajectory (record_id brec) (map record_point run_recs)
                 times),
           at_lines r rest' b)).
Proof.
  intros Hg Hu Hlf Ha Hrun Hparse Hids times.
  unfold CSVTemporalPointReader.read_next_temporal_trajectory. split; [|split].
  - intros ->. now rewrite (run_no_line true r Hg Hu).
  - intros Hne Hr.
    destruct (proj1 (run_first_run true r file_lines run_lines rest_lines run_recs p
                       Hg Hu Hne Hlf Ha Hrun Hparse Hids) Hr)
      as (lc & -> & Hi & Hgeom & Htimes).
    now rewrite Hi, Hgeom, Htimes.
  - intros Hne b rest' brec Hr Hb Hq.
    destruct (proj2 (run_first_run true r file_lines run_lines rest_lines run_recs p
                       Hg Hu Hne Hlf Ha Hrun Hparse Hids) b rest' brec Hr Hb Hq)
      as (lc & -> & Hi & Hgeom & Htimes).
    now rewrite Hi, Hgeom, Htimes.
Qed.

(** [assembler_returns_first_run] on [points_file].  From the reader as the
    constructor leaves it, the run of identifier 1 is ended by the record
    [2,5,5]; from the reader that call leaves, with [2,5,5] carried over
    and no line left in the file, the call returns the empty trajectory. *)
Lemma assembler_returns_first_run_witness :
  CSVTemporalPointReader.read_next_trajectory (E := sample) points_reader
  = (Ok (mkTrajectory 2 [(0, 0); (1, 1)]), at_lines points_reader [] "2,5,5")
  /\ at_lines points_reader [] "2,5,5" = points_reader_pending
  /\ CSVTemporalPointReader.read_next_trajectory (E := sample) points_reader_pending
     = (Ok (mkTrajectory (-1) []),
        CSVTemporalPointReader.set_prev_line (at_end points_reader_pending) "2,5,5").
Proof.
  split; [|split; [reflexivity|]].
  - refine (proj2 (proj2 (assembler_returns_first_run (E := sample) points_reader
                            ["1,0,0"; "1,1,1"; "2,5,5"]%string
                            ["1,0,0"; "1,1,1"]%string ["2,5,5"]%string
                            [(1, 0, 0, 0); (1, 1, 1, 0)] 1
                            _ _ _ _ _ _ _))
              _ "2,5,5"%string [] (2, 5, 5, 0) _ _ _).
    + reflexivity.
    + reflexivity.
    + repeat constructor.
    + reflexivity.
    + discriminate.
    + vm_compute. reflexivity.
    + repeat constructor.
    + discriminate.
    + reflexivity.
    + vm_compute. reflexivity.
    + simpl. lia.
  - refine (proj1 (assembler_returns_first_run (E := sample) points_reader_pending
                     [] ["2,5,5"]%string [] [(2, 5, 5, 0)] 2
                     _ _ _ _ _ _ _) _).
    + reflexivity.
    + reflexivity.
    + constructor.
    + reflexivity.
    + discriminate.
    + vm_compute. reflexivity.
    + repeat constructor.
    + reflexivity.
Defined.

(** [assembler_returns_first_run_times] on [timed_points_file]: one run, up
    to the end of the file; a further call finds no line and returns the
    empty trajectory. *)
Lemma assembler_returns_first_run_times_witness :
  CSVTemporalPointReader.read_next_temporal_trajectory (E := sample)
    timed_points_reader
  = (Ok (mkTemporalTrajectory 1 [(0, 0); (1, 1); (2, 2)] [10; 20; 30]),
     at_end timed_points_reader)
  /\ CSVTemporalPointReader.read_next_temporal_trajectory (E := sample)
       points_reader_pending
     = (Ok (mkTemporalTrajectory (-1) [] []),
        CSVTemporalPointReader.set_prev_line (at_end points_reader_pending) "2,5,5").
Proof.
  split.
  - refine (proj1 (proj2 (assembler_returns_first_run_times (E := sample)
                            timed_points_reader
                            ["1,0,0,10"; "1,1,1,20"; "1,2,2,30"]%string
                            ["1,0,0,10"; "1,1,1,20"; "1,2,2,30"]%string []
                            [(1, 0, 0, 10); (1, 1, 1, 20); (1, 2, 2, 30)] 1
                            _ _ _ _ _ _ _)) _ _).
    + reflexivity.
    + reflexivity.
    + repeat constructor.
    + reflexivity.
    + discriminate.
    + vm_compute. reflexivity.
    + repeat constructor.
    + discriminate.
    + reflexivity.
  - refine (proj1 (assembler_returns_first_run_times (E := sample)
                     points_reader_pending
                     [] ["2,5,5"]%string [] [(2, 5, 5, 0)] 2
                     _ _ _ _ _ _ _) _).
    + reflexivity.
    + reflexivity.
    + constructor.
    + reflexivity.
    + discriminate.
    + vm_compute. reflexivity.
    + repeat constructor.
    + reflexivity.
Defined.

(** ** Plain and temporal reads *)

Section PlainAndTemporal.
Import CSVTemporalPointReader.
Context {E : Externals}.

Lemma field_loop_forget (r : t) (toks : list string) :
  forall (index i : Z) (x y ts ts0 : double) (i' : Z) (x' y' ts' : double),
    field_loop true r toks index i x y ts = Ok (i', x', y', ts') ->
    field_loop false r toks index i x y ts0 = Ok (i', x', y', ts0).
Proof.
  induction toks as [|tok toks IH]; intros index i x y ts ts0 i' x' y' ts' H;
    simpl in *.
  - now inversion H.
  - destruct (if index =? id_idx r then stoi tok else Ok i); [|discriminate].
    destruct (if index =? x_idx r then stof tok else Ok x); [|discriminate].
    destruct (if index =? y_idx r then stof tok else Ok y); [|discriminate].
    destruct (if index =? time_idx r then stof tok else Ok ts); [|discriminate].
    eapply IH; eassumption.
Qed.

Lemma step_locals_forget (r : t) (lc lc0 : locals) (ln : string) (i : Z)
    (x y ts ts0 : double) :
  same_but_times lc lc0 ->
  same_but_times (step_locals true r lc ln i x y ts)
    (step_locals false r lc0 ln i x y ts0).
Proof.
  unfold same_but_times, step_locals. intros (Hg & Ho & Hf & Hp & Hl). simpl.
  rewrite Hg, Ho, Hf, Hp. repeat split.
Qed.

Lemma assemble_forget (fuel : nat) :
  forall (r r' : t) (lc lc0 out : locals),
    assemble true fuel r lc = Some (Ok out, r') ->
    same_but_times lc lc0 ->
    exists out0,
      assemble false fuel r lc0 = Some (Ok out0, r')
      /\ same_but_times out out0.
Proof.
  induction fuel as [|fuel IH]; intros r r' lc lc0 out H Hs;
    rewrite assemble_eq in H; rewrite assemble_eq;
    pose proof Hs as (Hg & Ho & Hf & Hp & Hl); rewrite <- Ho;
    (destruct (on_same_trajectory lc);
     [|inversion H; subst; eauto]);
    destruct (has_next_feature r) as [[|] r1]; try discriminate;
    try (inversion H; subst; eauto).
  rewrite <- Hl.
  destruct (next_line r1 (line lc)) as [ln r2].
  destruct (field_loop true r2 (tokenize ln (delim r2)) 0 0 double_zero
              double_zero double_zero) as [[[[i x] y] ts]|e] eqn:Hfl;
    [|discriminate].
  rewrite (field_loop_forget _ _ _ _ _ _ _ double_zero _ _ _ _ Hfl).
  pose proof (step_locals_forget r2 lc lc0 ln i x y ts double_zero Hs)
    as Hs'.
  cbv zeta in H |- *.
  pose proof Hs' as (_ & Ho' & _). rewrite <- Ho'.
  destruct (on_same_trajectory (step_locals true r2 lc ln i x y ts));
    (eapply IH; [exact H|exact Hs']).
Qed.

End PlainAndTemporal.

(** X13: whenever [read_next_temporal_trajectory] returns a trajectory,
    [read_next_trajectory] called in the same state returns the same
    identifier and the same points, and leaves the same reader: the plain
    read is the temporal one without the timestamps. *)
Theorem plain_read_forgets_times {E : Externals}
    (r r' : CSVTemporalPointReader.t) (timed : TemporalTrajectory double) :
  CSVTemporalPointReader.read_next_temporal_trajectory r = (Ok timed, r') ->
  CSVTemporalPointReader.read_next_trajectory r
  = (Ok (forget_timestamps timed), r').
Proof.
  unfold CSVTemporalPointReader.read_next_temporal_trajectory,
    CSVTemporalPointReader.read_next_trajectory.
  destruct (run_within_fuel true r) as ([res r1] & Ha & Hr). rewrite Hr.
  destruct res as [lc|e]; [|discriminate]. intros H; inversion H; subst; clear H.
  destruct (assemble_forget _ _ _ _ CSVTemporalPointReader.initial_locals _ Ha)
    as (out0 & Ha0 & Hg & _ & _ & Hp & _); [repeat split|].
  unfold CSVTemporalPointReader.run. rewrite Ha0.
  unfold forget_timestamps. simpl. now rewrite Hg, Hp.
Qed.

(** [plain_read_forgets_times] on [timed_points_file]. *)
Lemma plain_read_forgets_times_witness :
  CSVTemporalPointReader.read_next_trajectory (E := sample) timed_points_reader
  = (Ok (mkTrajectory 1 [(0, 0); (1, 1); (2, 2)]), timed_points_reader_done).
Proof.
  assert (H : CSVTemporalPointReader.read_next_temporal_trajectory (E := sample)
                timed_points_reader
              = (Ok (mkTemporalTrajectory 1 [(0, 0); (1, 1); (2, 2)] [10; 20; 30]),
                 timed_points_reader_done))
    by (vm_compute; reflexivity).
  exact (plain_read_forgets_times (E := sample) timed_points_reader _ _ H).
Defined.

Section TemporalRows.
Import CSVTemporalTrajectoryReader.
Context {E : Externals} {X : Extraction E}.

Lemma temporal_field_loop_forget (r : t) (toks : list string) :
  forall (index trid : Z) (g : LineString double) (ts : list double),
    field_loop r toks index trid g
    = match temporal_field_loop r toks index trid g ts with
      | Ok (a, g', _) => Ok (a, g')
      | Throw e => Throw e
      end.
Proof.
  induction toks as [|tok toks IH]; intros index trid g ts; simpl; [reflexivity|].
  destruct (if index =? id_idx r then stoi tok else Ok trid); [|reflexivity].
  destruct (if index =? geom_idx r then read_wkt tok else Ok g); [|reflexivity].
  apply IH.
Qed.

(** The loop of [string2time] ends within the fuel [string2time] gives
    it. *)
Lemma string2time_loop_ends (fuel : nat) :
  forall (ss : string) (values : list double),
    (String.length ss <= fuel)%nat ->
    exists out, string2time_loop fuel ss values = Some out.
Proof.
  induction fuel as [|fuel IH]; intros ss values Hlen; simpl;
    destruct (extract_double ss) as [[v rest]|] eqn:He; eauto.
  - apply extract_double_consumes in He. lia.
  - apply extract_double_consumes in He. apply IH.
    destruct rest as [|c rest]; [simpl; lia|].
    destruct (Ascii.eqb c ","%char); simpl in *; lia.
Qed.

Lemma string2time_loop_fuel (fuel1 : nat) :
  forall (fuel2 : nat) (ss : string) (values : list double),
    (String.length ss <= fuel1)%nat ->
    (String.length ss <= fuel2)%nat ->
    string2time_loop fuel1 ss values = string2time_loop fuel2 ss values.
Proof.
  induction fuel1 as [|fuel1 IH]; intros [|fuel2] ss values H1 H2; simpl;
    destruct (extract_double ss) as [[v rest]|] eqn:He; try reflexivity;
    apply extract_double_consumes in He; try lia.
  apply IH; destruct rest as [|c rest]; simpl in *; try lia;
    destruct (Ascii.eqb c ","%char); simpl in *; lia.
Qed.

End TemporalRows.

(** X14: [string2time] always returns.  Every value extracted takes at
    least one character off the field, so the loop [while (ss >> v)] ends
    within as many iterations as the field has characters, and running it
    any longer gives the same list. *)
Theorem string2time_ends {E : Externals} {X : Extraction E}
    (str : string) (fuel : nat) :
  (String.length str <= fuel)%nat ->
  CSVTemporalTrajectoryReader.string2time_loop fuel str []
  = Some (CSVTemporalTrajectoryReader.string2time str).
Proof.
  intros Hlen. unfold CSVTemporalTrajectoryReader.string2time.
  rewrite (string2time_loop_fuel fuel (String.length str) str [] Hlen (le_n _)).
  destruct (string2time_loop_ends (String.length str) str [] (le_n _)) as [out Ho].
  now rewrite Ho.
Qed.

(** [string2time_ends] on a list of three times. *)
Lemma string2time_ends_witness :
  CSVTemporalTrajectoryReader.string2time_loop (X := sample_extraction) 20
    "10,20,30" []
  = Some (CSVTemporalTrajectoryReader.string2time (X := sample_extraction)
            "10,20,30").
Proof.
  apply (string2time_ends (X := sample_extraction) "10,20,30" 20).
  simpl. lia.
Defined.

(** X15: in the whole-row temporal reader the time column can never make
    a read fail.  [read_next_trajectory] does what
    [read_next_temporal_trajectory] does, timestamps apart: same
    identifier and geometry, same exception if the identifier or the
    geometry is malformed, same reader afterwards; whatever the time field
    holds, [string2time] turns it into a list of values, possibly empty. *)
Theorem temporal_row_read_forgets_times {E : Externals} {X : Extraction E}
    (r : CSVTemporalTrajectoryReader.t) :
  CSVTemporalTrajectoryReader.read_next_trajectory r
  = match CSVTemporalTrajectoryReader.read_next_temporal_trajectory r with
    | (Ok timed, r') => (Ok (forget_timestamps timed), r')
    | (Throw e, r') => (Throw e, r')
    end.
Proof.
  unfold CSVTemporalTrajectoryReader.read_next_trajectory,
    CSVTemporalTrajectoryReader.read_next_temporal_trajectory.
  destruct (ios.getline (CSVTemporalTrajectoryReader.ifs r) "" LF) as [ln s'].
  rewrite (temporal_field_loop_forget _ _ 0 0 [] []).
  now destruct (CSVTemporalTrajectoryReader.temporal_field_loop _ _ 0 0 [] [])
    as [[[a g] ts]|e].
Qed.
